(** * Training-loop helpers of [utils.py]: a shallow embedding and its properties

    The module [utils.py] holds six independent helpers: [save_checkpoint],
    the class [AverageMeter], [accuracy], the two learning-rate schedules
    [CyclicLr] and [StepMinLr], and the context manager [timed_operation].

    Conventions of the embedding.
    - Python [int] is [Z]; Python [float] is an exact rational [Q], so that
      the arithmetic of the source is kept and its binary rounding is left
      out.  Numbers are compared with [==] ([Qeq]).  The rates and factors
      of the schedules are floats.  Where the source raises because a
      float leaves its range ([**]), the exception is modelled; a product
      that leaves the range is [inf] in the source and stays the exact
      product here.
    - A Python exception is a constructor of [exn]; an expression that may
      raise has type [res A]; a statement that mutates an object or the
      outside world returns the new state next to its outcome.
    - Python 3 semantics: [/] is true division, [%] takes the sign of the
      divisor, [int] truncates toward zero. *)

From Stdlib Require Import ZArith QArith Qabs Qpower Lia List Sorted Bool Ascii String.
From stdpp Require Import base gmap strings.

Import ListNotations.

Local Open Scope Z_scope.

(* ------------------------------------------------------------------ *)
(** ** Exceptions and results *)

Inductive exn : Type :=
| ZeroDivisionError
| OverflowError
| ValueError (msg : string)
| RuntimeError (msg : string)
| IndexOutOfRange
| ShapeMismatch
| SameFileError
| FileNotFoundError
| UserError (tag : string).

Inductive res (A : Type) : Type :=
| Ok (a : A)
| Raise (e : exn).

Arguments Ok {A} a.
Arguments Raise {A} e.

Definition bind {A B : Type} (r : res A) (k : A -> res B) : res B :=
  match r with
  | Ok a => k a
  | Raise e => Raise e
  end.

Notation "'do' x <- r ; k" := (bind r (fun x => k))
  (at level 10, x name, r at level 100, k at level 200).

(* ------------------------------------------------------------------ *)
(** ** Python arithmetic *)

(** [a / b] on two integers. *)
Definition py_truediv (a b : Z) : res Q :=
  if b =? 0 then Raise ZeroDivisionError
  else Ok (inject_Z a / inject_Z b)%Q.

(** [int(x)]: the integer part, rounding toward zero. *)
Definition py_int (x : Q) : Z := Z.quot (Qnum x) (Zpos (Qden x)).

(** [a % b] on two integers. *)
Definition py_mod (a b : Z) : res Z :=
  if b =? 0 then Raise ZeroDivisionError else Ok (a mod b).

(** The magnitude from which a number no longer rounds to a float:
    halfway between the largest float and [2 ^ 1024]. *)
Definition float_limit : Q := inject_Z (2 ^ 1024 - 2 ^ 970).

Definition overflows (x : Q) : bool := Qle_bool float_limit (Qabs x).

(** [x ** n] for a float [x] and an integer exponent: 0 raised to a
    negative power raises [ZeroDivisionError], a power out of the range of
    a float raises [OverflowError]. *)
Definition py_pow (x : Q) (n : Z) : res Q :=
  if Qeq_bool x 0 && (n <? 0) then Raise ZeroDivisionError
  else if overflows (x ^ n)%Q then Raise OverflowError
  else Ok (x ^ n)%Q.

(** [max(a, b)]: the second argument wins only when strictly greater. *)
Definition py_max (a b : Q) : Q :=
  match (b ?= a)%Q with
  | Gt => b
  | _ => a
  end.

(** [x / y] on two numbers. *)
Definition py_div (x y : Q) : res Q :=
  if Qeq_bool y 0 then Raise ZeroDivisionError else Ok (x / y)%Q.

(* ------------------------------------------------------------------ *)
(** ** class CyclicLr *)

Module CyclicLr.

Record t : Type := mk {
  start_epoch : Z;
  init_lr : Q;
  lr_decay_factor : Q;
  num_epochs_per_cycle : Z;
  epochs_pro_decay : Z
}.

(** [__init__] with its default arguments. *)
Definition init (start_epoch : Z) : t :=
  mk start_epoch (1 # 100) (1 # 2) 12 2.

(** The first statement of [__call__]. *)
Definition cur_epoch_in_cycle (self : t) (epoch : Z) : res Z :=
  py_mod (epoch - start_epoch self) (num_epochs_per_cycle self).

Definition call (self : t) (epoch : Z) : res Q :=
  do cur <- cur_epoch_in_cycle self epoch;
  do q <- py_truediv cur (epochs_pro_decay self);
  do p <- py_pow (lr_decay_factor self) (py_int q);
  Ok (init_lr self * p)%Q.

End CyclicLr.

(* ------------------------------------------------------------------ *)
(** ** class StepMinLr *)

Module StepMinLr.

Record t : Type := mk {
  start_epoch : Z;
  init_lr : Q;
  lr_decay_factor : Q;
  epochs_pro_decay : Z;
  min_lr : option Q
}.

Definition init (start_epoch : Z) : t :=
  mk start_epoch (1 # 100) (1 # 2) 2 None.

(** [int(cur_epoch / self.epochs_pro_decay)]. *)
Definition steps (self : t) (epoch : Z) : res Z :=
  let cur_epoch := epoch - start_epoch self in
  do q <- py_truediv cur_epoch (epochs_pro_decay self);
  Ok (py_int q).

(** The rate before the floor is applied. *)
Definition raw_lr (self : t) (epoch : Z) : res Q :=
  do n <- steps self epoch;
  do p <- py_pow (lr_decay_factor self) n;
  Ok (init_lr self * p)%Q.

Definition call (self : t) (epoch : Z) : res Q :=
  do lr <- raw_lr self epoch;
  match min_lr self with
  | Some m => Ok (py_max lr m)
  | None => Ok lr
  end.

End StepMinLr.

(* ------------------------------------------------------------------ *)
(** ** class AverageMeter *)

Module AverageMeter.

Record t : Type := mk {
  val : Q;
  avg : Q;
  sum : Q;
  count : Q
}.

(** [reset] assigns the four fields, whatever they held. *)
Definition reset (self : t) : t := mk 0 0 0 0.

(** [__init__] only calls [reset] on the fresh object. *)
Definition init : t := reset (mk 0 0 0 0).

(** [update] assigns [val], [sum] and [count] in turn and then divides.
    When the division raises, the three assignments have been made and
    [avg] keeps what it held. *)
Definition update (self : t) (v n : Q) : t * res unit :=
  let s1 := mk v (avg self) (sum self) (count self) in
  let s2 := mk (val s1) (avg s1) (sum s1 + v * n)%Q (count s1) in
  let s3 := mk (val s2) (avg s2) (sum s2) (count s2 + n)%Q in
  match py_div (sum s3) (count s3) with
  | Ok a => (mk (val s3) a (sum s3) (count s3), Ok tt)
  | Raise e => (s3, Raise e)
  end.

(** A caller making the calls [update(v, n)] of a list one after the
    other, going on with the same object after a call that raised. *)
Definition updates (self : t) (calls : list (Q * Q)) : t :=
  fold_left (fun m c => fst (update m (fst c) (snd c))) calls self.

(** The same calls, the first exception ending the sequence. *)
Fixpoint updates_strict (self : t) (calls : list (Q * Q)) : t * res unit :=
  match calls with
  | [] => (self, Ok tt)
  | (v, n) :: rest =>
      match update self v n with
      | (m, Ok _) => updates_strict m rest
      | (m, Raise e) => (m, Raise e)
      end
  end.

(** The states an object goes through: created by [__init__], then any
    number of [reset] and [update] calls. *)
Inductive reachable : t -> Prop :=
| reach_init : reachable init
| reach_reset m : reachable m -> reachable (reset m)
| reach_update m v n : reachable m -> reachable (fst (update m v n)).

(** The mean is the quotient of sum by count whenever the count is not 0. *)
Definition mean_ok (m : t) : Prop :=
  (~ count m == 0 -> avg m == sum m / count m)%Q.

End AverageMeter.

(** [sum(v * n for v, n in calls)] and [sum(n for v, n in calls)]. *)
Definition weighted_sum (calls : list (Q * Q)) : Q :=
  fold_right (fun c acc => (fst c * snd c + acc)%Q) 0%Q calls.

Definition total_weight (calls : list (Q * Q)) : Q :=
  fold_right (fun c acc => (snd c + acc)%Q) 0%Q calls.

(* ------------------------------------------------------------------ *)
(** ** timed_operation *)

Module Timed.

(** What [print] writes.  The number of a completion line is kept as a
    number: the text that [{:.4f}] makes of it is not modelled. *)
Inductive line : Type :=
| StartLine (msg : string)
| FinishedLine (msg : string) (elapsed : Q) (tformat : string)
| OtherLine (text : string).

(** The outside world: the clock read by [time.time()] and the lines
    printed so far, oldest first. *)
Record world : Type := mkWorld {
  now : Q;
  out : list line
}.

Definition print (l : line) (w : world) : world :=
  mkWorld (now w) (out w ++ [l]).

(** The code run inside the [with] block: it may print, let time pass,
    and return or raise. *)
Definition block : Type := world -> world * res unit.

(** The generator suspended at its [yield], with its local variables. *)
Record frame : Type := mkFrame {
  f_msg : string;
  f_tformat : string;
  f_start : Q
}.

(** The world in which the block starts: the start line is printed when
    [log_start] holds. *)
Definition entered (msg : string) (log_start : bool) (w : world) : world :=
  if log_start then print (StartLine msg) w else w.

(** The statements before [yield]: the optional start line, then the
    clock is read into [start]. *)
Definition before_yield (msg : string) (log_start : bool) (tformat : string)
    (w : world) : world * frame :=
  let w1 := entered msg log_start w in
  (w1, mkFrame msg tformat (now w1)).

(** The two [if] statements after [yield].  The first one binds [ns]
    for ["s"] and falls through to the second, whose branches bind [ns]
    again or raise; what the function gives is the value of [ns] when
    the second statement is left. *)
Definition unit_divisor (tformat : string) : res Q :=
  let ns : option Q := if String.eqb tformat "s" then Some 1%Q else None in
  if String.eqb tformat "m" then Ok 60%Q
  else if String.eqb tformat "h" then Ok (60 ^ 2)%Q
  else if String.eqb tformat "d" then Ok (60 ^ 2 * 24)%Q
  else Raise (ValueError ("Unknown tformat=" ++ tformat)).

(** The statements after [yield], run when the generator is resumed. *)
Definition after_yield (fr : frame) (w : world) : world * res unit :=
  match unit_divisor (f_tformat fr) with
  | Raise e => (w, Raise e)
  | Ok ns =>
      (print (FinishedLine (f_msg fr) ((now w - f_start fr) / ns)%Q
                (f_tformat fr)) w, Ok tt)
  end.

(** An exception thrown into the generator is raised at the [yield]; no
    [try] statement encloses the [yield], so it leaves the generator at
    once and none of the statements after [yield] run. *)
Definition throw_at_yield (fr : frame) (e : exn) (w : world) : world * res unit :=
  (w, Raise e).

(** [with timed_operation(msg, log_start, tformat): body].  The context
    manager built by [@contextmanager] runs the generator up to [yield]
    on entry; on exit it resumes the generator when the block returned
    and throws the block's exception into it otherwise, and an exception
    that comes back out of the generator is raised to the caller. *)
Definition timed_operation (msg : string) (log_start : bool) (tformat : string)
    (body : block) (w : world) : world * res unit :=
  let (w1, fr) := before_yield msg log_start tformat w in
  match body w1 with
  | (w2, Ok _) => after_yield fr w2
  | (w2, Raise e) => throw_at_yield fr e w2
  end.

(** Does the output hold a completion line? *)
Definition is_finished (l : line) : bool :=
  match l with
  | FinishedLine _ _ _ => true
  | _ => false
  end.

Definition logged_finished (w : world) : bool := existsb is_finished (out w).

(** The four unit symbols of the divisor table. *)
Definition recognized (tformat : string) : bool :=
  String.eqb tformat "s" || String.eqb tformat "m"
  || String.eqb tformat "h" || String.eqb tformat "d".

(** The divisor table: seconds in a unit. *)
Definition divisor (tformat : string) : Q :=
  if String.eqb tformat "s" then 1
  else if String.eqb tformat "m" then 60
  else if String.eqb tformat "h" then 3600
  else 86400.

End Timed.

(* ------------------------------------------------------------------ *)
(** ** The tensor operations used by accuracy *)

Module Torch.

(** A two-dimensional tensor of scores: one row per example, [ncols]
    entries in each row. *)
Record tensor2 : Type := mkTensor {
  ncols : nat;
  rows : list (list Q)
}.

Definition wf (x : tensor2) : Prop :=
  Forall (fun r => length r = ncols x) (rows x).

Definition score (row : list Q) (i : nat) : Q := nth i row 0%Q.

Definition Qlt_bool (x y : Q) : bool :=
  match (x ?= y)%Q with
  | Lt => true
  | _ => false
  end.

(** [a] comes no later than [b] in the order of decreasing score. *)
Definition above (row : list Q) (a b : nat) : Prop :=
  (score row b <= score row a)%Q.

(** What [x.topk(k, 1, True, True)] promises of the indices it returns
    for one row: [k] distinct positions of the row, by decreasing score,
    no position left out scoring higher than one returned.  Which of
    several positions of equal score it returns, and in which order, the
    library does not say; a selection [sel] is any function that keeps the
    promise. *)
Record selection (sel : nat -> list Q -> list nat) : Prop := mkSelection {
  sel_length : forall k row, (k <= length row)%nat -> length (sel k row) = k;
  sel_NoDup : forall k row, List.NoDup (sel k row);
  sel_bound : forall k row i, In i (sel k row) -> (i < length row)%nat;
  sel_sorted : forall k row, StronglySorted (above row) (sel k row);
  sel_highest : forall k row i j,
    In i (sel k row) -> (j < length row)%nat -> ~ In j (sel k row) ->
    (score row j <= score row i)%Q
}.

(** Two selections, by insertion sort.  [insert_desc low_first row i l]
    puts [i], lower than every index of [l], into [l], ordered by
    decreasing score: among equal scores before the others when
    [low_first] holds, after them when it does not. *)
Definition placed_after (low_first : bool) (row : list Q) (i j : nat) : bool :=
  if low_first then Qlt_bool (score row i) (score row j)
  else Qle_bool (score row i) (score row j).

Fixpoint insert_desc (low_first : bool) (row : list Q) (i : nat) (l : list nat)
    : list nat :=
  match l with
  | [] => [i]
  | j :: l' =>
      if placed_after low_first row i j
      then j :: insert_desc low_first row i l'
      else i :: l
  end.

Definition sort_desc (low_first : bool) (row : list Q) (idx : list nat) : list nat :=
  fold_right (insert_desc low_first row) [] idx.

Definition argsort_desc (low_first : bool) (row : list Q) : list nat :=
  sort_desc low_first row (seq 0 (length row)).

Definition select (low_first : bool) (k : nat) (row : list Q) : list nat :=
  firstn k (argsort_desc low_first row).

(** [x.topk(k, 1, True, True)], indices only, with the selection [sel]
    of the library. *)
Definition topk (sel : nat -> list Q -> list nat) (k : nat) (x : tensor2)
    : res (list (list nat)) :=
  if (ncols x <? k)%nat then Raise IndexOutOfRange
  else Ok (map (sel k) (rows x)).

(** [p.t()] for [p] with [n] columns. *)
Definition t (n : nat) (p : list (list nat)) : list (list nat) :=
  map (fun i => map (fun r => nth i r 0%nat) p) (seq 0 n).

(** [v.view(1, -1).expand_as(p)] for [p] with [b] columns: the row that
    every row of the result repeats.  A one-element [v] is broadcast. *)
Definition expand_row (v : list nat) (b : nat) : res (list nat) :=
  if (length v =? b)%nat then Ok v
  else match v with
       | [x] => Ok (repeat x b)
       | _ => Raise ShapeMismatch
       end.

(** One row of [p.eq(e)]. *)
Fixpoint eq_row (r e : list nat) : list bool :=
  match r, e with
  | x :: r', y :: e' => Nat.eqb x y :: eq_row r' e'
  | _, _ => []
  end.

(** [c.view(-1)] for a slice [c] of [correct].  [correct] has the layout
    of the transposed [pred], column after column in memory, so the
    entries of a slice follow one another at a fixed distance only when
    the slice has a single row or a single column (or no entry at all);
    any other slice cannot be viewed flat and [view] raises. *)
Definition view_error : exn :=
  RuntimeError "view size is not compatible with input tensor's size and stride".

Definition view_flat (c : list (list bool)) : res (list bool) :=
  match c with
  | r :: _ :: _ =>
      if (2 <=? length r)%nat then Raise view_error else Ok (concat c)
  | _ => Ok (concat c)
  end.

(** [v.float().sum(0, keepdim=True)]: how many entries hold. *)
Definition sum_float (v : list bool) : Q :=
  inject_Z (Z.of_nat (length (List.filter (fun b : bool => b) v))).

End Torch.

(* ------------------------------------------------------------------ *)
(** ** accuracy *)

(** [max(topk)]. *)
Definition py_max_list (l : list nat) : res nat :=
  match l with
  | [] => Raise (ValueError "max() arg is an empty sequence")
  | k :: l' => Ok (fold_left Nat.max l' k)
  end.

(** The [for] loop that fills [res]. *)
Fixpoint for_each {A B : Type} (l : list A) (f : A -> res B) : res (list B) :=
  match l with
  | [] => Ok []
  | a :: l' =>
      do b <- f a;
      do bs <- for_each l' f;
      Ok (b :: bs)
  end.

Definition accuracy (sel : nat -> list Q -> list nat) (output : Torch.tensor2)
    (target : list nat) (topk : list nat) : res (list Q) :=
  do maxk <- py_max_list topk;
  let batch_size := length target in
  do pred <- Torch.topk sel maxk output;
  let pred := Torch.t maxk pred in
  do expanded <- Torch.expand_row target (length (Torch.rows output));
  let correct := map (fun r => Torch.eq_row r expanded) pred in
  for_each topk (fun k =>
    do flat <- Torch.view_flat (firstn k correct);
    let correct_k := Torch.sum_float flat in
    do scale <- py_div 100 (inject_Z (Z.of_nat batch_size));
    Ok (correct_k * scale)%Q).

(** The slices that [view] accepts: a batch of at most one example, or no
    [k] above 1. *)
Definition view_ok (batch : nat) (topk : list nat) : bool :=
  (batch <=? 1)%nat || forallb (fun k => (k <=? 1)%nat) topk.

(** *** What the claim speaks of *)

(** The classes that score higher than the class [label], and their
    number. *)
Definition higher (row : list Q) (label : nat) : list nat :=
  List.filter (fun j => Torch.Qlt_bool (Torch.score row label) (Torch.score row j))
    (seq 0 (length row)).

Definition rank (row : list Q) (label : nat) : nat := length (higher row label).

(** Is [label] among the [k] highest-scored classes of the example?  It
    is a class, and fewer than [k] classes score higher. *)
Definition in_top_k (k : nat) (row : list Q) (label : nat) : bool :=
  (label <? length row)%nat && (rank row label <? k)%nat.

(** No other class has the score of the class [label]. *)
Definition untied (row : list Q) (label : nat) : bool :=
  forallb (fun j => (j =? label)%nat
                    || negb (Qeq_bool (Torch.score row j) (Torch.score row label)))
    (seq 0 (length row)).

(** [label] is the class of the highest score, and the only one. *)
Definition strict_argmax (row : list Q) (label : nat) : bool :=
  (label <? length row)%nat
  && forallb (fun j => (j =? label)%nat
                       || Torch.Qlt_bool (Torch.score row j) (Torch.score row label))
       (seq 0 (length row)).

Fixpoint all_untied (rows : list (list Q)) (target : list nat) : bool :=
  match rows, target with
  | row :: rows', label :: target' => untied row label && all_untied rows' target'
  | _, _ => true
  end.

Fixpoint all_strict_argmax (rows : list (list Q)) (target : list nat) : bool :=
  match rows, target with
  | row :: rows', label :: target' =>
      strict_argmax row label && all_strict_argmax rows' target'
  | [], [] => true
  | _, _ => false
  end.

(** How many examples of the batch have their label among the [k]
    highest-scored classes, and the percentage they are. *)
Fixpoint num_in_top_k (k : nat) (rows : list (list Q)) (target : list nat) : nat :=
  match rows, target with
  | row :: rows', label :: target' =>
      ((if in_top_k k row label then 1 else 0) + num_in_top_k k rows' target')%nat
  | _, _ => 0%nat
  end.

Definition percent_in_top_k (k : nat) (output : Torch.tensor2) (target : list nat) : Q :=
  (100 * inject_Z (Z.of_nat (num_in_top_k k (Torch.rows output) target))
   / inject_Z (Z.of_nat (length (Torch.rows output))))%Q.

(** *** What the code counts *)

(** Is [label] among the first [k] of the [maxk] indices selected? *)
Definition hit (sel : nat -> list Q -> list nat) (maxk k : nat) (row : list Q)
    (label : nat) : bool :=
  existsb (Nat.eqb label) (firstn k (sel maxk row)).

Fixpoint num_hits (sel : nat -> list Q -> list nat) (maxk k : nat)
    (rows : list (list Q)) (target : list nat) : nat :=
  match rows, target with
  | row :: rows', label :: target' =>
      ((if hit sel maxk k row label then 1 else 0)
       + num_hits sel maxk k rows' target')%nat
  | _, _ => 0%nat
  end.

(** [max(topk)] of a tuple that is not empty. *)
Definition max_of (topk : list nat) : nat :=
  match topk with
  | [] => 0%nat
  | k :: l => fold_left Nat.max l k
  end.

(** The value that [accuracy] appends for [k]. *)
Definition appended (sel : nat -> list Q -> list nat) (topk : list nat) (k : nat)
    (output : Torch.tensor2) (target : list nat) : Q :=
  (inject_Z (Z.of_nat (num_hits sel (max_of topk) k (Torch.rows output) target))
   * (100 / inject_Z (Z.of_nat (length target))))%Q.

(** Counting, for the proofs: the entries of a boolean list that hold,
    and the occurrences of a label in a list of classes. *)
Definition count_true (l : list bool) : nat :=
  length (List.filter (fun b : bool => b) l).

Definition hits (label : nat) (l : list nat) : nat :=
  length (List.filter (Nat.eqb label) l).

(** The entries of the first rows of [correct] that hold, for the rows
    listed by [idx]. *)
Definition col_hits (idx : list nat) (pred : list (list nat)) (target : list nat)
    : nat :=
  count_true
    (concat (map (fun i => Torch.eq_row (map (fun r => nth i r 0%nat) pred) target) idx)).

(** The rows of [correct], for [pred] before it is transposed. *)
Definition correct_rows (maxk : nat) (pred : list (list nat)) (target : list nat)
    : list (list bool) :=
  map (fun r => Torch.eq_row r target) (Torch.t maxk pred).

(* ------------------------------------------------------------------ *)
(** ** Paths, as [posixpath] computes them *)

Module Path.

Definition is_sep (c : ascii) : bool := Ascii.eqb c "/".

Fixpoint has_sep (p : string) : bool :=
  match p with
  | EmptyString => false
  | String c r => is_sep c || has_sep r
  end.

Fixpoint all_sep (p : string) : bool :=
  match p with
  | EmptyString => true
  | String c r => is_sep c && all_sep r
  end.

(** [p[:p.rfind('/') + 1]]: [p] up to its last separator, included. *)
Fixpoint head_of (p : string) : string :=
  match p with
  | EmptyString => EmptyString
  | String c r =>
      if has_sep r then String c (head_of r)
      else if is_sep c then String c EmptyString
      else EmptyString
  end.

(** [p[p.rfind('/') + 1:]]. *)
Fixpoint tail_of (p : string) : string :=
  match p with
  | EmptyString => EmptyString
  | String c r =>
      if has_sep r then tail_of r
      else if is_sep c then r
      else p
  end.

(** [h.rstrip('/')]. *)
Fixpoint rstrip_sep (h : string) : string :=
  match h with
  | EmptyString => EmptyString
  | String c r => if all_sep h then EmptyString else String c (rstrip_sep r)
  end.

Definition dirname (p : string) : string :=
  let head := head_of p in
  if negb (String.eqb head "") && negb (all_sep head)
  then rstrip_sep head
  else head.

Definition basename (p : string) : string := tail_of p.

Definition starts_with_sep (p : string) : bool :=
  match p with
  | String c _ => is_sep c
  | EmptyString => false
  end.

Fixpoint ends_with_sep (p : string) : bool :=
  match p with
  | EmptyString => false
  | String c EmptyString => is_sep c
  | String _ r => ends_with_sep r
  end.

(** [os.path.join(a, b)]. *)
Definition join (a b : string) : string :=
  if starts_with_sep b then b
  else if String.eqb a "" || ends_with_sep a then a ++ b
  else a ++ "/" ++ b.

End Path.

(* ------------------------------------------------------------------ *)
(** ** save_checkpoint *)

(** The file system: the content of every file.  Several paths can name
    one file (["run//a"] and ["run/a"], a link and its target); [resolve]
    gives the name under which the file of a path is kept, so that two
    paths name the same file exactly when they resolve alike.  It is the
    operating system's and is left open. *)
Abbreviation filesystem := (gmap string (list Byte.byte)).

(** ['model_best{}.pth.tar'.format(best_suffix)]. *)
Definition best_name (best_suffix : string) : string :=
  "model_best" ++ best_suffix ++ ".pth.tar".

(** The second argument of [shutil.copyfile] in [save_checkpoint]. *)
Definition best_path (filepath best_suffix : string) : string :=
  Path.join (Path.dirname filepath) (best_name best_suffix).

Section Checkpoint.

Variable resolve : string -> string.

Definition read_file (path : string) (fs : filesystem) : option (list Byte.byte) :=
  fs !! resolve path.

Definition write_file (path : string) (content : list Byte.byte)
    (fs : filesystem) : filesystem :=
  <[resolve path := content]> fs.

(** [shutil.copyfile(src, dst)]: it refuses to copy a file onto itself. *)
Definition copyfile (src dst : string) (fs : filesystem) : filesystem * res unit :=
  if String.eqb (resolve src) (resolve dst) then (fs, Raise SameFileError)
  else match read_file src fs with
       | None => (fs, Raise FileNotFoundError)
       | Some content => (write_file dst content fs, Ok tt)
       end.

(** The serialization of [torch.save] and [torch.load], which the
    repository takes from the library: [torch.load] gives back what
    [torch.save] wrote. *)
Context {State : Type}.
Variable serialize : State -> list Byte.byte.
Variable deserialize : list Byte.byte -> option State.

Definition torch_save (state : State) (path : string) (fs : filesystem)
    : filesystem :=
  write_file path (serialize state) fs.

Definition torch_load (path : string) (fs : filesystem) : option State :=
  match read_file path fs with
  | Some content => deserialize content
  | None => None
  end.

Definition save_checkpoint (state : State) (is_best : bool)
    (filepath best_suffix : string) (fs : filesystem) : filesystem * res unit :=
  let fs1 := torch_save state filepath fs in
  if is_best
  then copyfile filepath
         (Path.join (Path.dirname filepath) (best_name best_suffix)) fs1
  else (fs1, Ok tt).

End Checkpoint.

(** Every path names a file of its own: no links, one spelling a file. *)
Definition plain_names : string -> string := fun path => path.

(** The default arguments of [save_checkpoint]. *)
Definition default_filepath : string := "checkpoint.pth.tar".
Definition default_best_suffix : string := "".

(* ------------------------------------------------------------------ *)
(** ** A block for the timer *)

(** A block that prints the lines [ls], takes the time [dt] and returns. *)
Definition appending_block (dt : Q) (ls : list Timed.line) : Timed.block :=
  fun w => (Timed.mkWorld (Timed.now w + dt)%Q (Timed.out w ++ ls), Ok tt).

(* ================================================================== *)
(** * Properties *)

(* ------------------------------------------------------------------ *)
(** ** Arithmetic of the schedules *)

Section ScheduleArith.

Local Open Scope Q_scope.

(** [int(a / b)] on integers is the quotient rounded toward zero. *)
Lemma py_int_truediv (a b : Z) :
  b <> 0%Z -> py_int (inject_Z a / inject_Z b) = Z.quot a b.
Proof.
  intros Hb. unfold py_int, Qdiv, Qinv, inject_Z. simpl.
  destruct b as [|p|p]; simpl.
  - congruence.
  - now rewrite Z.mul_1_r.
  - rewrite <- (Z.quot_opp_opp a (Z.neg p)) by discriminate.
    simpl. f_equal. lia.
Qed.

Lemma py_truediv_ok (a b : Z) :
  b <> 0%Z -> py_truediv a b = Ok (inject_Z a / inject_Z b).
Proof.
  intros Hb. unfold py_truediv.
  destruct (Z.eqb_spec b 0); [contradiction | reflexivity].
Qed.

Lemma py_pow_ok (x : Q) (n : Z) :
  (x == 0 -> (0 <= n)%Z) -> overflows (x ^ n) = false ->
  py_pow x n = Ok (x ^ n).
Proof.
  intros H Hov. unfold py_pow. rewrite Hov.
  destruct (Qeq_bool x 0) eqn:Hx; simpl; [|reflexivity].
  apply Qeq_bool_eq in Hx. specialize (H Hx).
  destruct (Z.ltb_spec n 0); [lia | reflexivity].
Qed.

(** The call raises [OverflowError] exactly on the powers out of range. *)
Lemma py_pow_overflow (x : Q) (n : Z) :
  (x == 0 -> (0 <= n)%Z) -> overflows (x ^ n) = true ->
  py_pow x n = Raise OverflowError.
Proof.
  intros H Hov. unfold py_pow. rewrite Hov.
  destruct (Qeq_bool x 0) eqn:Hx; simpl; [|reflexivity].
  apply Qeq_bool_eq in Hx. specialize (H Hx).
  destruct (Z.ltb_spec n 0); [lia | reflexivity].
Qed.

(** What a returning call has computed. *)
Lemma py_pow_inv (x : Q) (n : Z) (p : Q) :
  py_pow x n = Ok p -> p = x ^ n /\ overflows (x ^ n) = false.
Proof.
  unfold py_pow.
  destruct (Qeq_bool x 0 && (n <? 0)%Z); [discriminate|].
  destruct (overflows (x ^ n)); [discriminate|].
  intros H. injection H as <-. now split.
Qed.

Lemma overflows_false_iff (x : Q) : overflows x = false <-> Qabs x < float_limit.
Proof.
  unfold overflows. rewrite <- not_true_iff_false, Qle_bool_iff.
  split; [apply Qnot_le_lt | apply Qlt_not_le].
Qed.

Lemma float_limit_gt_1 : 1 < float_limit.
Proof. reflexivity. Qed.

(** A number between 0 and 1 is in range, and so is a number below one
    that is. *)
Lemma unit_in_range (x : Q) : 0 <= x -> x <= 1 -> overflows x = false.
Proof.
  intros H0 H1. apply overflows_false_iff.
  rewrite Qabs_pos by assumption.
  eapply Qle_lt_trans; [exact H1 | apply float_limit_gt_1].
Qed.

Lemma smaller_in_range (x y : Q) :
  0 <= x -> x <= y -> overflows y = false -> overflows x = false.
Proof.
  intros H0 Hxy Hy. apply overflows_false_iff. apply overflows_false_iff in Hy.
  rewrite Qabs_pos by assumption.
  rewrite Qabs_pos in Hy by (eapply Qle_trans; eassumption).
  eapply Qle_lt_trans; eassumption.
Qed.

(** A factor between 0 and 1 raised to a non-negative power stays
    below 1. *)
Lemma Qpower_le_1 (q : Q) (k : Z) :
  0 < q -> q <= 1 -> (0 <= k)%Z -> q ^ k <= 1.
Proof.
  intros Hpos Hle Hk. revert k Hk.
  apply natlike_ind.
  - apply Qle_refl.
  - intros k Hk IH. unfold Z.succ.
    rewrite Qpower_plus by (intros E; rewrite E in Hpos; discriminate).
    rewrite <- (Qmult_1_r 1).
    apply Qmult_le_compat_nonneg.
    + split; [apply Qpower_0_le, Qlt_le_weak, Hpos | exact IH].
    + split; [simpl; apply Qlt_le_weak, Hpos | simpl; exact Hle].
Qed.

(** Such a factor gives powers that decrease with the exponent, on the
    negative exponents too. *)
Lemma Qpower_antitone (q : Q) (n m : Z) :
  0 < q -> q <= 1 -> (n <= m)%Z -> q ^ m <= q ^ n.
Proof.
  intros Hpos Hle Hnm.
  replace m with (n + (m - n))%Z by ring.
  rewrite Qpower_plus by (intros E; rewrite E in Hpos; discriminate).
  rewrite <- (Qmult_1_r (q ^ n)) at 2.
  apply Qmult_le_l; [apply Qpower_0_lt, Hpos|].
  apply Qpower_le_1; [assumption | assumption | lia].
Qed.

Lemma py_max_ge_l (a b : Q) : a <= py_max a b.
Proof.
  unfold py_max. destruct (b ?= a) eqn:E.
  - apply Qle_refl.
  - apply Qle_refl.
  - apply Qgt_alt in E. apply Qlt_le_weak, E.
Qed.

Lemma py_max_ge_r (a b : Q) : b <= py_max a b.
Proof.
  unfold py_max. destruct (b ?= a) eqn:E.
  - apply Qeq_alt in E. rewrite E. apply Qle_refl.
  - apply Qlt_alt in E. apply Qlt_le_weak, E.
  - apply Qle_refl.
Qed.

Lemma py_max_cases (a b : Q) : py_max a b = a \/ py_max a b = b.
Proof. unfold py_max. destruct (b ?= a); auto. Qed.

Lemma py_max_mono (a a' b : Q) : a <= a' -> py_max a b <= py_max a' b.
Proof.
  intros H. destruct (py_max_cases a b) as [E|E]; rewrite E.
  - eapply Qle_trans; [exact H | apply py_max_ge_l].
  - apply py_max_ge_r.
Qed.

End ScheduleArith.

(* ------------------------------------------------------------------ *)
(** ** CyclicLr *)

Section CyclicLrFacts.

Import CyclicLr.
Local Open Scope Q_scope.

Lemma cur_epoch_in_cycle_ok (c : t) (epoch : Z) :
  num_epochs_per_cycle c <> 0%Z ->
  cur_epoch_in_cycle c epoch
  = Ok ((epoch - start_epoch c) mod num_epochs_per_cycle c)%Z.
Proof.
  intros H. unfold cur_epoch_in_cycle, py_mod.
  destruct (Z.eqb_spec (num_epochs_per_cycle c) 0); [contradiction | reflexivity].
Qed.

(** The call at a known position of the cycle: the power decides. *)
Lemma call_at_position_pow (c : t) (epoch pos : Z) :
  cur_epoch_in_cycle c epoch = Ok pos ->
  (0 <= pos)%Z -> (0 < epochs_pro_decay c)%Z ->
  call c epoch
  = (do p <- py_pow (lr_decay_factor c) (pos / epochs_pro_decay c);
     Ok (init_lr c * p)).
Proof.
  intros Hpos Hnn Hepd. unfold call. rewrite Hpos. simpl.
  rewrite py_truediv_ok by lia. simpl.
  rewrite py_int_truediv by lia.
  now rewrite Z.quot_div_nonneg by lia.
Qed.

(** The rate at a known position of the cycle, the power in range. *)
Lemma call_at_position (c : t) (epoch pos : Z) :
  cur_epoch_in_cycle c epoch = Ok pos ->
  (0 <= pos)%Z -> (0 < epochs_pro_decay c)%Z ->
  overflows (lr_decay_factor c ^ (pos / epochs_pro_decay c)) = false ->
  call c epoch = Ok (init_lr c * lr_decay_factor c ^ (pos / epochs_pro_decay c)).
Proof.
  intros Hpos Hnn Hepd Hov.
  rewrite (call_at_position_pow c epoch pos Hpos Hnn Hepd).
  rewrite py_pow_ok; [reflexivity | | exact Hov].
  intros _. apply Z.div_pos; lia.
Qed.

(** A factor in (0, 1] keeps every power of a cycle in range. *)
Lemma decay_power_in_range (q : Q) (n : Z) :
  0 < q -> q <= 1 -> (0 <= n)%Z -> overflows (q ^ n) = false.
Proof.
  intros Hpos Hle Hn. apply unit_in_range.
  - apply Qpower_0_le, Qlt_le_weak, Hpos.
  - now apply Qpower_le_1.
Qed.

(** C5 as the claim words it fails twice: a negative cycle length gives a
    negative position, and a factor above 1 gives a power that no float
    holds. *)
Lemma CyclicLr_rate_counterexample :
  (cur_epoch_in_cycle (mk 0 (1 # 100) (1 # 2) (-12) 2) 7 = Ok (-5)%Z
   /\ ~ (0 <= -5)%Z)
  /\ call (mk 0 1 2 5000 1) 2000 = Raise OverflowError.
Proof.
  split; [split; [reflexivity | lia]|].
  vm_compute. reflexivity.
Qed.

(** C5, as the code has it.  With a positive cycle length and a positive
    decay period, every integer epoch, before [start_epoch] as well as
    after it, has a cycle position [pos] that is the non-negative
    remainder of [epoch - start_epoch] by [num_epochs_per_cycle]; the call
    returns [init_lr * lr_decay_factor ^ floor(pos / epochs_pro_decay)]
    when that power is in the range of a float and raises [OverflowError]
    when it is not.  The rate at [start_epoch] and the rate one cycle
    later are both [init_lr]. *)
Theorem CyclicLr_rate (c : t) (epoch : Z) :
  (0 < num_epochs_per_cycle c)%Z ->
  (0 < epochs_pro_decay c)%Z ->
  (exists pos : Z,
      cur_epoch_in_cycle c epoch = Ok pos
      /\ (0 <= pos < num_epochs_per_cycle c)%Z
      /\ (exists k : Z, (epoch - start_epoch c = k * num_epochs_per_cycle c + pos)%Z)
      /\ (overflows (lr_decay_factor c ^ (pos / epochs_pro_decay c)) = false ->
          call c epoch
          = Ok (init_lr c * lr_decay_factor c ^ (pos / epochs_pro_decay c)))
      /\ (overflows (lr_decay_factor c ^ (pos / epochs_pro_decay c)) = true ->
          call c epoch = Raise OverflowError))
  /\ (exists r0, call c (start_epoch c) = Ok r0 /\ r0 == init_lr c)
  /\ (exists r1, call c (start_epoch c + num_epochs_per_cycle c) = Ok r1
                 /\ r1 == init_lr c).
Proof.
  intros Hn Hepd.
  assert (Hpos : forall e, cur_epoch_in_cycle c e
                 = Ok ((e - start_epoch c) mod num_epochs_per_cycle c)%Z)
    by (intros e; apply cur_epoch_in_cycle_ok; lia).
  assert (Hzero : forall e, cur_epoch_in_cycle c e = Ok 0%Z ->
            exists r, call c e = Ok r /\ r == init_lr c).
  { intros e He. eexists. split.
    - apply (call_at_position c e 0%Z He); [lia | assumption |].
      rewrite Z.div_0_l by lia. reflexivity.
    - rewrite Z.div_0_l by lia. simpl. apply Qmult_1_r. }
  split; [|split].
  - exists ((epoch - start_epoch c) mod num_epochs_per_cycle c)%Z.
    pose proof (Z.mod_pos_bound (epoch - start_epoch c) _ Hn) as Hb.
    split; [apply Hpos|]. split; [exact Hb|]. split; [|split].
    + exists ((epoch - start_epoch c) / num_epochs_per_cycle c)%Z.
      rewrite Z.mul_comm. apply Z.div_mod. lia.
    + apply call_at_position; [apply Hpos | lia | assumption].
    + intros Hov.
      rewrite (call_at_position_pow c epoch _ (Hpos epoch)) by lia.
      rewrite py_pow_overflow; [reflexivity | | exact Hov].
      intros _. apply Z.div_pos; lia.
  - apply Hzero. rewrite Hpos. now rewrite Z.sub_diag, Z.mod_0_l by lia.
  - apply Hzero. rewrite Hpos.
    replace (start_epoch c + num_epochs_per_cycle c - start_epoch c)%Z
      with (num_epochs_per_cycle c) by ring.
    now rewrite Z.mod_same by lia.
Qed.

Lemma CyclicLr_rate_witness :
  let c := mk 5 (1 # 100) (1 # 2) 12 2 in
  (0 < num_epochs_per_cycle c)%Z /\ (0 < epochs_pro_decay c)%Z
  /\ cur_epoch_in_cycle c 3 = Ok 10%Z
  /\ call c 3 = Ok (init_lr c * lr_decay_factor c ^ (10 / epochs_pro_decay c)).
Proof.
  intros c.
  assert (H1 : (0 < num_epochs_per_cycle c)%Z) by reflexivity.
  assert (H2 : (0 < epochs_pro_decay c)%Z) by reflexivity.
  split; [exact H1|]. split; [exact H2|].
  destruct (proj1 (CyclicLr_rate c 3 H1 H2)) as (pos & Hpos & _ & _ & Hok & _).
  assert (E : pos = 10%Z) by (vm_compute in Hpos; congruence).
  subst pos. split; [exact Hpos|]. apply Hok. vm_compute. reflexivity.
Defined.

End CyclicLrFacts.

(* ------------------------------------------------------------------ *)
(** ** StepMinLr *)

Section StepMinLrFacts.

Import StepMinLr.
Local Open Scope Q_scope.

(** The number of decay steps is the quotient rounded toward zero. *)
Lemma steps_quot (c : t) (epoch : Z) :
  epochs_pro_decay c <> 0%Z ->
  steps c epoch = Ok (Z.quot (epoch - start_epoch c) (epochs_pro_decay c)).
Proof.
  intros H. unfold steps. rewrite py_truediv_ok by assumption. simpl.
  now rewrite py_int_truediv.
Qed.

Lemma raw_lr_pow (c : t) (epoch : Z) :
  epochs_pro_decay c <> 0%Z ->
  raw_lr c epoch
  = (do p <- py_pow (lr_decay_factor c)
               (Z.quot (epoch - start_epoch c) (epochs_pro_decay c));
     Ok (init_lr c * p)).
Proof.
  intros Hepd. unfold raw_lr. now rewrite steps_quot by assumption.
Qed.

Lemma raw_lr_ok (c : t) (epoch : Z) :
  epochs_pro_decay c <> 0%Z ->
  (lr_decay_factor c == 0 ->
   (0 <= Z.quot (epoch - start_epoch c) (epochs_pro_decay c))%Z) ->
  overflows (lr_decay_factor c
             ^ Z.quot (epoch - start_epoch c) (epochs_pro_decay c)) = false ->
  raw_lr c epoch
  = Ok (init_lr c
        * lr_decay_factor c ^ Z.quot (epoch - start_epoch c) (epochs_pro_decay c)).
Proof.
  intros Hepd Hdf Hov. rewrite raw_lr_pow by assumption.
  now rewrite py_pow_ok.
Qed.

(** What a returning call has computed before the floor. *)
Lemma raw_lr_inv (c : t) (epoch : Z) (r : Q) :
  epochs_pro_decay c <> 0%Z ->
  raw_lr c epoch = Ok r ->
  r = init_lr c
      * lr_decay_factor c ^ Z.quot (epoch - start_epoch c) (epochs_pro_decay c)
  /\ overflows (lr_decay_factor c
                ^ Z.quot (epoch - start_epoch c) (epochs_pro_decay c)) = false.
Proof.
  intros Hepd H. rewrite raw_lr_pow in H by assumption.
  destruct (py_pow _ _) as [p|x] eqn:E; [|discriminate].
  apply py_pow_inv in E as [-> Hov]. simpl in H. injection H as <-. now split.
Qed.

(** With a factor that is not 0 the only exception is [OverflowError]. *)
Lemma raw_lr_raise (c : t) (epoch : Z) (x : exn) :
  epochs_pro_decay c <> 0%Z -> ~ lr_decay_factor c == 0 ->
  raw_lr c epoch = Raise x -> x = OverflowError.
Proof.
  intros Hepd Hdf H. rewrite raw_lr_pow in H by assumption.
  unfold py_pow in H.
  destruct (Qeq_bool (lr_decay_factor c) 0) eqn:E.
  - apply Qeq_bool_eq in E. contradiction.
  - simpl in H. destruct (overflows _); simpl in H; congruence.
Qed.

(** Without a floor the call is the raw rate; with one, the larger of
    the two. *)
Lemma call_of_raw (c : t) (epoch : Z) (lr : Q) :
  raw_lr c epoch = Ok lr ->
  call c epoch = Ok (match min_lr c with Some m => py_max lr m | None => lr end).
Proof.
  intros H. unfold call. rewrite H. simpl. now destruct (min_lr c).
Qed.

Lemma call_inv (c : t) (epoch : Z) (r : Q) :
  call c epoch = Ok r ->
  exists lr, raw_lr c epoch = Ok lr
             /\ r = match min_lr c with Some m => py_max lr m | None => lr end.
Proof.
  unfold call. destruct (raw_lr c epoch) as [lr|x]; [|discriminate].
  simpl. intros H. exists lr. split; [reflexivity|].
  destruct (min_lr c); congruence.
Qed.

Lemma call_raise (c : t) (epoch : Z) (x : exn) :
  call c epoch = Raise x -> raw_lr c epoch = Raise x.
Proof.
  unfold call. destruct (raw_lr c epoch) as [lr|y]; simpl.
  - destruct (min_lr c); discriminate.
  - congruence.
Qed.

(** From [start_epoch] on, a factor in (0, 1] keeps the power in range. *)
Lemma raw_lr_after_start (c : t) (epoch : Z) :
  0 < lr_decay_factor c -> lr_decay_factor c <= 1 ->
  (0 < epochs_pro_decay c)%Z -> (start_epoch c <= epoch)%Z ->
  raw_lr c epoch
  = Ok (init_lr c
        * lr_decay_factor c ^ Z.quot (epoch - start_epoch c) (epochs_pro_decay c)).
Proof.
  intros Hpos Hle Hepd He.
  assert (Hq : (0 <= Z.quot (epoch - start_epoch c) (epochs_pro_decay c))%Z)
    by (apply Z.quot_pos; lia).
  apply raw_lr_ok; [lia | intros _; exact Hq |].
  apply unit_in_range; [apply Qpower_0_le, Qlt_le_weak, Hpos|].
  now apply Qpower_le_1.
Qed.

(** With a positive period and a factor in (0, 1], when the call of an
    epoch returns, the call of a later epoch returns a raw rate that is no
    larger, as long as [init_lr] is not negative. *)
Lemma raw_lr_antitone (c : t) (e1 e2 : Z) (r1 : Q) :
  0 <= init_lr c -> 0 < lr_decay_factor c -> lr_decay_factor c <= 1 ->
  (0 < epochs_pro_decay c)%Z -> (e1 <= e2)%Z ->
  raw_lr c e1 = Ok r1 ->
  exists r2, raw_lr c e2 = Ok r2 /\ r2 <= r1.
Proof.
  intros Hinit Hpos Hle Hepd He H1.
  apply raw_lr_inv in H1 as [-> Hov1]; [|lia].
  assert (Hpow : lr_decay_factor c ^ Z.quot (e2 - start_epoch c) (epochs_pro_decay c)
                 <= lr_decay_factor c ^ Z.quot (e1 - start_epoch c) (epochs_pro_decay c)).
  { apply Qpower_antitone; [assumption | assumption |].
    apply Z.quot_le_mono; lia. }
  eexists. split.
  - apply raw_lr_ok; [lia | |].
    + intros E. rewrite E in Hpos. discriminate.
    + apply (smaller_in_range _ _ (Qpower_0_le _ _ (Qlt_le_weak _ _ Hpos)) Hpow Hov1).
  - rewrite !(Qmult_comm (init_lr c)).
    now apply Qmult_le_compat_r.
Qed.

(** C6, as the code has it.  For an initial rate that is not negative, a
    decay factor in (0, 1] and a positive decay period, the rate never
    grows with the epoch, with a floor [min_lr] and without one: when the
    call of an epoch returns, the call of every later epoch returns a rate
    that is no larger.  The call returns from [start_epoch] on; before, it
    returns or raises [OverflowError]. *)
Theorem StepMinLr_monotone (c : t) (e1 e2 : Z) :
  0 <= init_lr c ->
  0 < lr_decay_factor c -> lr_decay_factor c <= 1 ->
  (0 < epochs_pro_decay c)%Z ->
  (e1 <= e2)%Z ->
  (forall r1, call c e1 = Ok r1 -> exists r2, call c e2 = Ok r2 /\ r2 <= r1)
  /\ ((start_epoch c <= e1)%Z -> exists r1, call c e1 = Ok r1)
  /\ (forall x, call c e1 = Raise x -> x = OverflowError).
Proof.
  intros Hinit Hpos Hle Hepd He. split; [|split].
  - intros r1 Hcall. apply call_inv in Hcall as (x1 & H1 & ->).
    destruct (raw_lr_antitone c e1 e2 x1 Hinit Hpos Hle Hepd He H1)
      as (x2 & H2 & Hx).
    eexists. split; [apply call_of_raw, H2|].
    destruct (min_lr c) as [m|]; [apply py_max_mono|]; exact Hx.
  - intros Hs. eexists. apply call_of_raw.
    now apply raw_lr_after_start.
  - intros x Hx. apply call_raise in Hx.
    apply (raw_lr_raise c e1 x); [lia | | exact Hx].
    intros E. rewrite E in Hpos. discriminate.
Qed.

Lemma StepMinLr_monotone_witness :
  let c := mk 0 1 (1 # 2) 1 (Some (1 # 10)) in
  0 <= init_lr c /\ 0 < lr_decay_factor c /\ lr_decay_factor c <= 1
  /\ (0 < epochs_pro_decay c)%Z /\ (3 <= 10)%Z
  /\ call c 3 = Ok (1 # 8)
  /\ exists r2, call c 10 = Ok r2 /\ r2 <= 1 # 8.
Proof.
  intros c.
  assert (H0 : 0 <= init_lr c) by (unfold Qle; simpl; lia).
  assert (H1 : 0 < lr_decay_factor c) by reflexivity.
  assert (H2 : lr_decay_factor c <= 1) by (unfold Qle; simpl; lia).
  assert (H3 : (0 < epochs_pro_decay c)%Z) by reflexivity.
  assert (H4 : (3 <= 10)%Z) by lia.
  assert (H5 : call c 3 = Ok (1 # 8)) by (vm_compute; reflexivity).
  repeat (split; [assumption|]).
  exact (proj1 (StepMinLr_monotone c 3 10 H0 H1 H2 H3 H4) (1 # 8) H5).
Defined.

(** C6 as the claim words it, for every configuration with a decay
    factor in (0, 1], fails: a negative initial rate climbs toward zero
    as the epochs pass, and so does the rate of a negative decay
    period; and far enough before [start_epoch] there is no rate at all,
    the call raising [OverflowError]. *)
Lemma StepMinLr_monotone_counterexample :
  let c := mk 0 (-1) (1 # 2) 1 None in
  let d := mk 0 1 (1 # 2) (-1) None in
  (0 < lr_decay_factor c /\ lr_decay_factor c <= 1
   /\ call c 0 = Ok (-1) /\ call c 1 = Ok (-1 # 2)
   /\ ~ (-1 # 2 <= -1))
  /\ (0 < lr_decay_factor d /\ lr_decay_factor d <= 1
      /\ call d 0 = Ok 1 /\ call d 1 = Ok 2
      /\ ~ (2 <= 1))
  /\ call (mk 0 1 (1 # 2) 1 None) (-1024) = Raise OverflowError.
Proof.
  intros c d.
  split; [|split].
  - split; [reflexivity|]. split; [unfold Qle; simpl; lia|].
    split; [vm_compute; reflexivity|]. split; [vm_compute; reflexivity|].
    unfold Qle; simpl; lia.
  - split; [reflexivity|]. split; [unfold Qle; simpl; lia|].
    split; [vm_compute; reflexivity|]. split; [vm_compute; reflexivity|].
    unfold Qle; simpl; lia.
  - vm_compute. reflexivity.
Qed.

(** C7 as the claim words it, for every epoch, fails: far enough before
    [start_epoch] the power is out of the range of a float and the call
    raises before the floor is applied. *)
Lemma StepMinLr_floor_counterexample :
  call (mk 0 1 (1 # 2) 1 (Some (1 # 10))) (-1024) = Raise OverflowError.
Proof. vm_compute. reflexivity. Qed.

(** C7, as the code has it.  When a floor [min_lr] is configured, every
    rate that the call returns is the maximum of
    [init_lr * lr_decay_factor ^ steps] and [min_lr]: it is one of the two
    and no smaller than either.  The call returns when the period is not
    0, a factor of 0 is not raised to a negative power and the power is in
    the range of a float.  With [init_lr = 1], [lr_decay_factor = 0.5],
    [epochs_pro_decay = 1], [min_lr = 0.1] and [start_epoch = 0], the rate
    at epoch 10 is 0.1. *)
Theorem StepMinLr_floor (c : t) (m : Q) (epoch : Z) :
  min_lr c = Some m ->
  epochs_pro_decay c <> 0%Z ->
  (forall r, call c epoch = Ok r ->
     exists n,
       steps c epoch = Ok n
       /\ (r = init_lr c * lr_decay_factor c ^ n \/ r = m)
       /\ init_lr c * lr_decay_factor c ^ n <= r
       /\ m <= r)
  /\ ((lr_decay_factor c == 0 ->
       (0 <= Z.quot (epoch - start_epoch c) (epochs_pro_decay c))%Z) ->
      overflows (lr_decay_factor c
                 ^ Z.quot (epoch - start_epoch c) (epochs_pro_decay c)) = false ->
      exists r, call c epoch = Ok r)
  /\ call (mk 0 1 (1 # 2) 1 (Some (1 # 10))) 10 = Ok (1 # 10).
Proof.
  intros Hm Hepd. split; [|split].
  - intros r Hcall. apply call_inv in Hcall as (lr & Hraw & ->).
    apply raw_lr_inv in Hraw as [-> _]; [|assumption].
    exists (Z.quot (epoch - start_epoch c) (epochs_pro_decay c)).
    split; [apply steps_quot, Hepd|]. rewrite Hm.
    split; [apply py_max_cases|].
    split; [apply py_max_ge_l | apply py_max_ge_r].
  - intros Hdf Hov. eexists. apply call_of_raw. now apply raw_lr_ok.
  - vm_compute. reflexivity.
Qed.

Lemma StepMinLr_floor_witness :
  let c := mk 0 1 (1 # 2) 1 (Some (1 # 10)) in
  min_lr c = Some (1 # 10)
  /\ epochs_pro_decay c <> 0%Z
  /\ call c 2 = Ok (1 # 4)
  /\ exists n,
      steps c 2 = Ok n
      /\ (1 # 4 = init_lr c * lr_decay_factor c ^ n \/ 1 # 4 = 1 # 10)
      /\ init_lr c * lr_decay_factor c ^ n <= 1 # 4
      /\ 1 # 10 <= 1 # 4.
Proof.
  intros c.
  assert (H0 : min_lr c = Some (1 # 10)) by reflexivity.
  assert (H1 : epochs_pro_decay c <> 0%Z) by discriminate.
  assert (H2 : call c 2 = Ok (1 # 4)) by (vm_compute; reflexivity).
  repeat (split; [assumption|]).
  exact (proj1 (StepMinLr_floor c (1 # 10) 2 H0 H1) (1 # 4) H2).
Defined.

(** C10. The step count is the quotient of [epoch - start_epoch] by
    [epochs_pro_decay] rounded toward zero.  For an epoch less than one
    period before [start_epoch] it is 0, where the quotient rounded
    down is -1, and the rate before any floor is [init_lr]. *)
Theorem StepMinLr_steps_truncate (c : t) (epoch : Z) :
  (epochs_pro_decay c <> 0%Z ->
   steps c epoch = Ok (Z.quot (epoch - start_epoch c) (epochs_pro_decay c)))
  /\ ((start_epoch c - epochs_pro_decay c < epoch < start_epoch c)%Z ->
      steps c epoch = Ok 0%Z
      /\ ((epoch - start_epoch c) / epochs_pro_decay c = -1)%Z
      /\ exists r, raw_lr c epoch = Ok r /\ r == init_lr c).
Proof.
  split; [apply steps_quot|].
  intros Hrange.
  assert (Hq : Z.quot (epoch - start_epoch c) (epochs_pro_decay c) = 0%Z).
  { rewrite <- (Z.opp_involutive (epoch - start_epoch c)).
    rewrite Z.quot_opp_l by lia.
    rewrite Z.quot_small by lia. reflexivity. }
  split; [rewrite steps_quot by lia; now rewrite Hq|].
  split.
  { symmetry. apply (Z.div_unique _ _ _ (epoch - start_epoch c + epochs_pro_decay c)); lia. }
  eexists. split.
  - apply raw_lr_ok; [lia | rewrite Hq; lia | rewrite Hq; reflexivity].
  - rewrite Hq. simpl. apply Qmult_1_r.
Qed.

Lemma StepMinLr_steps_truncate_witness :
  let c := mk 10 (1 # 100) (1 # 2) 4 None in
  (epochs_pro_decay c <> 0%Z
   /\ steps c 7 = Ok (Z.quot (7 - start_epoch c) (epochs_pro_decay c)))
  /\ ((start_epoch c - epochs_pro_decay c < 7 < start_epoch c)%Z
      /\ steps c 7 = Ok 0%Z
      /\ ((7 - start_epoch c) / epochs_pro_decay c = -1)%Z
      /\ exists r, raw_lr c 7 = Ok r /\ r == init_lr c).
Proof.
  intros c.
  assert (H1 : epochs_pro_decay c <> 0%Z) by discriminate.
  assert (H2 : (start_epoch c - epochs_pro_decay c < 7 < start_epoch c)%Z)
    by (simpl; lia).
  split.
  - split; [assumption|]. exact (proj1 (StepMinLr_steps_truncate c 7) H1).
  - split; [assumption|]. exact (proj2 (StepMinLr_steps_truncate c 7) H2).
Defined.

End StepMinLrFacts.


(* ------------------------------------------------------------------ *)
(** ** AverageMeter *)

Section AverageMeterFacts.

Import AverageMeter.
Local Open Scope Q_scope.

Lemma update_val (m : t) (v n : Q) : val (fst (update m v n)) = v.
Proof. unfold update. now destruct (py_div _ _). Qed.

Lemma update_sum (m : t) (v n : Q) : sum (fst (update m v n)) = sum m + v * n.
Proof. unfold update. now destruct (py_div _ _). Qed.

Lemma update_count (m : t) (v n : Q) : count (fst (update m v n)) = count m + n.
Proof. unfold update. now destruct (py_div _ _). Qed.

(** [update] returns exactly when the new count is not 0, and then [avg]
    is the quotient of the new sum by the new count. *)
Lemma update_ok (m : t) (v n : Q) :
  ~ count m + n == 0 ->
  update m v n
  = (mk v ((sum m + v * n) / (count m + n)) (sum m + v * n) (count m + n), Ok tt).
Proof.
  intros H. unfold update, py_div. simpl.
  destruct (Qeq_bool (count m + n) 0) eqn:E; [|reflexivity].
  apply Qeq_bool_eq in E. contradiction.
Qed.

(** Otherwise it raises, with [avg] left as it was. *)
Lemma update_raise (m : t) (v n : Q) :
  count m + n == 0 ->
  update m v n
  = (mk v (avg m) (sum m + v * n) (count m + n), Raise ZeroDivisionError).
Proof.
  intros H. unfold update, py_div. simpl.
  destruct (Qeq_bool (count m + n) 0) eqn:E; [reflexivity|].
  apply Qeq_bool_neq in E. contradiction.
Qed.

Lemma update_mean_ok (m : t) (v n : Q) : mean_ok (fst (update m v n)).
Proof.
  unfold mean_ok.
  destruct (Qeq_dec (count m + n) 0) as [E|E].
  - rewrite update_raise by assumption. simpl. intros H. contradiction.
  - rewrite update_ok by assumption. simpl. intros _. reflexivity.
Qed.

Lemma reachable_mean_ok (m : t) : reachable m -> mean_ok m.
Proof.
  induction 1 as [|m _ _|m v n _ _].
  - intros H. exfalso. apply H. reflexivity.
  - intros H. exfalso. apply H. reflexivity.
  - apply update_mean_ok.
Qed.

Lemma updates_cons (m : t) (v n : Q) (calls : list (Q * Q)) :
  updates m ((v, n) :: calls) = updates (fst (update m v n)) calls.
Proof. reflexivity. Qed.

Lemma updates_sum (calls : list (Q * Q)) (m : t) :
  sum (updates m calls) == sum m + weighted_sum calls.
Proof.
  revert m. induction calls as [|[v n] calls IH]; intros m.
  - simpl. ring.
  - rewrite updates_cons, IH, update_sum. simpl. ring.
Qed.

Lemma updates_count (calls : list (Q * Q)) (m : t) :
  count (updates m calls) == count m + total_weight calls.
Proof.
  revert m. induction calls as [|[v n] calls IH]; intros m.
  - simpl. ring.
  - rewrite updates_cons, IH, update_count. simpl. ring.
Qed.

Lemma updates_mean_ok (calls : list (Q * Q)) (m : t) :
  mean_ok m -> mean_ok (updates m calls).
Proof.
  revert m. induction calls as [|[v n] calls IH]; intros m Hm.
  - exact Hm.
  - rewrite updates_cons. apply IH, update_mean_ok.
Qed.

(** When no call raises, the caller that stops at the first exception
    ends in the same state. *)
Lemma updates_strict_ok (calls : list (Q * Q)) (m m' : t) :
  updates_strict m calls = (m', Ok tt) -> m' = updates m calls.
Proof.
  revert m. induction calls as [|[v n] calls IH]; intros m H.
  - simpl in H. injection H as <-. reflexivity.
  - simpl in H. rewrite updates_cons.
    destruct (update m v n) as [m1 [u|e]] eqn:E; [|discriminate].
    simpl. now apply IH.
Qed.

(** C3. After any finite sequence of [update(v_i, w_i)] calls on a meter
    that was reset, [sum] is the sum of the [v_i * w_i], [count] is the
    sum of the [w_i], and [avg] is [sum / count] whenever [count > 0];
    and [reset] sets the four fields of any reachable meter to 0. *)
Theorem AverageMeter_sums (m0 : t) (calls : list (Q * Q)) :
  let m := updates (reset m0) calls in
  sum m == weighted_sum calls
  /\ count m == total_weight calls
  /\ (0 < count m -> avg m == sum m / count m)
  /\ (forall s, reachable s ->
      val (reset s) = 0 /\ avg (reset s) = 0
      /\ sum (reset s) = 0 /\ count (reset s) = 0).
Proof.
  intros m. split; [|split; [|split]].
  - unfold m. rewrite updates_sum. simpl. ring.
  - unfold m. rewrite updates_count. simpl. ring.
  - intros Hpos. apply (updates_mean_ok calls (reset m0)).
    + intros H. exfalso. apply H. reflexivity.
    + intros E. fold m in E. rewrite E in Hpos. discriminate.
  - intros s _. repeat split.
Qed.

Lemma AverageMeter_sums_witness :
  let calls := [(3, 2); (1 # 2, 4)] in
  let m := updates (reset init) calls in
  0 < count m /\ reachable m
  /\ sum m == weighted_sum calls
  /\ count m == total_weight calls
  /\ avg m == sum m / count m
  /\ (val (reset m) = 0 /\ avg (reset m) = 0
      /\ sum (reset m) = 0 /\ count (reset m) = 0).
Proof.
  intros calls m.
  assert (Hpos : 0 < count m) by reflexivity.
  assert (Hreach : reachable m)
    by exact (reach_update _ (1 # 2) 4
                (reach_update _ 3 2 (reach_reset _ reach_init))).
  split; [assumption|]. split; [assumption|].
  destruct (AverageMeter_sums init calls) as (Hs & Hc & Ha & Hr).
  split; [exact Hs|]. split; [exact Hc|].
  split; [exact (Ha Hpos) | exact (Hr m Hreach)].
Defined.

(** C4 as the claim words it fails: on a meter whose count is 0, as it is
    after [reset], [update(v, 0)] raises. *)
Lemma AverageMeter_zero_weight_counterexample :
  reachable init
  /\ update init 1 0 = (mk 1 0 0 0, Raise ZeroDivisionError).
Proof. split; [apply reach_init | reflexivity]. Qed.

(** C4, as the code has it.  On a reachable meter, [update(v, 0)] returns
    when the count is not 0, leaving sum, count and mean as they were; when
    the count is 0 it raises [ZeroDivisionError], the sum, count and mean
    again as they were.  The last value is [v] in both cases. *)
Theorem AverageMeter_zero_weight (m : t) (v : Q) :
  reachable m ->
  let m' := fst (update m v 0) in
  (val m' = v /\ sum m' == sum m /\ count m' == count m /\ avg m' == avg m)
  /\ (~ count m == 0 -> snd (update m v 0) = Ok tt)
  /\ (count m == 0 -> snd (update m v 0) = Raise ZeroDivisionError).
Proof.
  intros Hreach m'.
  assert (Hc : count m + 0 == count m) by ring.
  assert (Hs : sum m + v * 0 == sum m) by ring.
  destruct (Qeq_dec (count m) 0) as [E|E].
  - assert (E' : count m + 0 == 0) by (rewrite Hc; exact E).
    unfold m'. rewrite (update_raise m v 0 E'). simpl.
    split; [repeat split; auto; reflexivity|].
    split; [intros H; contradiction | reflexivity].
  - assert (E' : ~ count m + 0 == 0) by (rewrite Hc; exact E).
    unfold m'. rewrite (update_ok m v 0 E'). simpl.
    split.
    + split; [reflexivity|]. split; [exact Hs|]. split; [exact Hc|].
      rewrite (reachable_mean_ok m Hreach E), Hs, Hc. reflexivity.
    + split; [reflexivity | intros H; contradiction].
Qed.

Lemma AverageMeter_zero_weight_witness :
  let m := fst (update init 3 2) in
  reachable m
  /\ (val (fst (update m 7 0)) = 7
      /\ sum (fst (update m 7 0)) == sum m
      /\ count (fst (update m 7 0)) == count m
      /\ avg (fst (update m 7 0)) == avg m)
  /\ snd (update m 7 0) = Ok tt.
Proof.
  intros m.
  assert (Hreach : reachable m) by apply reach_update, reach_init.
  split; [assumption|].
  destruct (AverageMeter_zero_weight m 7 Hreach) as (Hf & Hok & _).
  split; [exact Hf|]. apply Hok. discriminate.
Defined.

End AverageMeterFacts.


(* ------------------------------------------------------------------ *)
(** ** timed_operation *)

Section TimedFacts.

Import Timed.
Local Open Scope Q_scope.

Lemma before_yield_eq (msg : string) (log_start : bool) (tformat : string)
    (w : world) :
  before_yield msg log_start tformat w
  = (entered msg log_start w,
     mkFrame msg tformat (now (entered msg log_start w))).
Proof. reflexivity. Qed.

(** The scope around a block that returns. *)
Lemma timed_operation_returning (msg : string) (log_start : bool)
    (tformat : string) (body : block) (w w2 : world) :
  body (entered msg log_start w) = (w2, Ok tt) ->
  timed_operation msg log_start tformat body w
  = after_yield (mkFrame msg tformat (now (entered msg log_start w))) w2.
Proof.
  intros H. unfold timed_operation. rewrite before_yield_eq, H. reflexivity.
Qed.

(** The scope around a block that raises. *)
Lemma timed_operation_raising (msg : string) (log_start : bool)
    (tformat : string) (body : block) (w w2 : world) (e : exn) :
  body (entered msg log_start w) = (w2, Raise e) ->
  timed_operation msg log_start tformat body w = (w2, Raise e).
Proof.
  intros H. unfold timed_operation. rewrite before_yield_eq, H. reflexivity.
Qed.

Lemma unit_divisor_unknown (tformat : string) :
  String.eqb tformat "m" = false -> String.eqb tformat "h" = false ->
  String.eqb tformat "d" = false ->
  unit_divisor tformat = Raise (ValueError ("Unknown tformat=" ++ tformat)).
Proof. intros Hm Hh Hd. unfold unit_divisor. now rewrite Hm, Hh, Hd. Qed.

(** C1, what the code does.  Around a block that returns, the scope
    returns for the units ["m"], ["h"] and ["d"], having printed after the
    block a completion line with the elapsed time divided by 60, 3600 and
    86400; for every other unit it raises [ValueError] and prints nothing
    after the block.  The unit ["s"], the default, is among the others:
    its divisor 1 is bound by the first [if], and the [else] of the second
    [if] raises all the same. *)
Theorem timed_operation_units (msg : string) (log_start : bool)
    (tformat : string) (body : block) (w w2 : world) :
  body (entered msg log_start w) = (w2, Ok tt) ->
  let r := timed_operation msg log_start tformat body w in
  let elapsed := now w2 - now (entered msg log_start w) in
  (tformat = "m" \/ tformat = "h" \/ tformat = "d" ->
   exists x, r = (print (FinishedLine msg x tformat) w2, Ok tt)
             /\ x == elapsed / divisor tformat)
  /\ (tformat = "s" -> r = (w2, Raise (ValueError "Unknown tformat=s")))
  /\ (recognized tformat = false ->
      r = (w2, Raise (ValueError ("Unknown tformat=" ++ tformat)))).
Proof.
  intros Hbody r elapsed. unfold r.
  rewrite (timed_operation_returning _ _ _ _ _ _ Hbody).
  split; [|split].
  - intros [-> | [-> | ->]]; eexists; (split; [reflexivity|]);
      unfold elapsed; simpl; reflexivity.
  - intros ->. reflexivity.
  - intros Hrec. unfold recognized in Hrec.
    apply orb_false_elim in Hrec as [Hrec Hd].
    apply orb_false_elim in Hrec as [Hrec Hh].
    apply orb_false_elim in Hrec as [_ Hm].
    unfold after_yield. simpl.
    now rewrite (unit_divisor_unknown tformat Hm Hh Hd).
Qed.

Lemma timed_operation_units_witness :
  let body : block := fun w => (mkWorld (now w + 1) (out w), Ok tt) in
  let w := mkWorld 10 [] in
  body (entered "Good Stuff" false w) = (mkWorld 11 [], Ok tt)
  /\ timed_operation "Good Stuff" false "s" body w
     = (mkWorld 11 [], Raise (ValueError "Unknown tformat=s")).
Proof.
  intros body w.
  assert (H : body (entered "Good Stuff" false w) = (mkWorld 11 [], Ok tt))
    by reflexivity.
  split; [exact H|].
  exact (proj1 (proj2 (timed_operation_units "Good Stuff" false "s" body w _ H))
           eq_refl).
Defined.

(** C2 as the claim words it fails: a block that raises under the unit
    ["m"] leaves no completion line behind. *)
Lemma timed_operation_raise_counterexample :
  let body : block := fun w => (mkWorld (now w + 1) (out w), Raise (UserError "boom")) in
  let r := timed_operation "job" true "m" body (mkWorld 0 []) in
  recognized "m" = true
  /\ r = (mkWorld 1 [StartLine "job"], Raise (UserError "boom"))
  /\ logged_finished (fst r) = false.
Proof. intros body r. repeat split. Qed.

(** C2, as the code has it.  When the block raises, the scope raises the
    same exception, whatever the unit, and the world is the one the block
    left: nothing is printed after the block and the clock is not read
    again, so a completion line is in the output only if the block itself
    printed one. *)
Theorem timed_operation_raise (msg : string) (log_start : bool)
    (tformat : string) (body : block) (w w2 : world) (e : exn) :
  body (entered msg log_start w) = (w2, Raise e) ->
  let r := timed_operation msg log_start tformat body w in
  snd r = Raise e
  /\ fst r = w2
  /\ logged_finished (fst r) = logged_finished w2.
Proof.
  intros Hbody r. unfold r.
  rewrite (timed_operation_raising _ _ _ _ _ _ _ Hbody). repeat split.
Qed.

Lemma timed_operation_raise_witness :
  let body : block := fun w => (mkWorld (now w + 1) (out w), Raise (UserError "boom")) in
  let w := mkWorld 0 [] in
  let r := timed_operation "job" true "h" body w in
  body (entered "job" true w) = (mkWorld 1 [StartLine "job"], Raise (UserError "boom"))
  /\ snd r = Raise (UserError "boom")
  /\ fst r = mkWorld 1 [StartLine "job"]
  /\ logged_finished (fst r) = logged_finished (mkWorld 1 [StartLine "job"]).
Proof.
  intros body w r.
  assert (H : body (entered "job" true w)
              = (mkWorld 1 [StartLine "job"], Raise (UserError "boom")))
    by reflexivity.
  split; [exact H|].
  exact (timed_operation_raise "job" true "h" body w _ _ H).
Defined.

End TimedFacts.

(* ------------------------------------------------------------------ *)
(** ** accuracy: the two selections keep the promise of [topk] *)

Section SortFacts.

Import Torch.
Local Open Scope nat_scope.

Variable low_first : bool.
Variable row : list Q.

Lemma insert_desc_length (i : nat) (l : list nat) :
  length (insert_desc low_first row i l) = S (length l).
Proof.
  induction l as [|j l IH]; simpl; [reflexivity|].
  destruct (placed_after _ _ _ _); simpl; [now rewrite IH | reflexivity].
Qed.

Lemma insert_desc_In (i x : nat) (l : list nat) :
  In x (insert_desc low_first row i l) <-> x = i \/ In x l.
Proof.
  induction l as [|j l IH]; simpl.
  - intuition.
  - destruct (placed_after _ _ _ _); simpl; rewrite ?IH; intuition.
Qed.

Lemma insert_desc_NoDup (i : nat) (l : list nat) :
  ~ In i l -> List.NoDup l -> List.NoDup (insert_desc low_first row i l).
Proof.
  induction l as [|j l IH]; simpl; intros Hi Hl.
  - constructor; [intros [] | constructor].
  - inversion Hl as [|? ? Hj Hl']; subst.
    destruct (placed_after _ _ _ _).
    + constructor.
      * rewrite insert_desc_In. intros [->|H]; [apply Hi; now left | contradiction].
      * apply IH; [intros H; apply Hi; now right | assumption].
    + constructor; [exact Hi | exact Hl].
Qed.

Lemma sort_desc_length (idx : list nat) :
  length (sort_desc low_first row idx) = length idx.
Proof.
  induction idx as [|i idx IH]; simpl; [reflexivity|].
  now rewrite insert_desc_length, IH.
Qed.

Lemma sort_desc_In (x : nat) (idx : list nat) :
  In x (sort_desc low_first row idx) <-> In x idx.
Proof.
  induction idx as [|i idx IH]; simpl; [reflexivity|].
  rewrite insert_desc_In, IH. intuition.
Qed.

Lemma sort_desc_NoDup (idx : list nat) :
  List.NoDup idx -> List.NoDup (sort_desc low_first row idx).
Proof.
  induction idx as [|i idx IH]; simpl; intros H; [constructor|].
  inversion H; subst.
  apply insert_desc_NoDup; [now rewrite sort_desc_In | now apply IH].
Qed.

Lemma argsort_desc_length : length (argsort_desc low_first row) = length row.
Proof. unfold argsort_desc. now rewrite sort_desc_length, length_seq. Qed.

Lemma argsort_desc_In (x : nat) :
  In x (argsort_desc low_first row) <-> x < length row.
Proof.
  unfold argsort_desc. rewrite sort_desc_In, in_seq. lia.
Qed.

Lemma argsort_desc_NoDup : List.NoDup (argsort_desc low_first row).
Proof. apply sort_desc_NoDup, seq_NoDup. Qed.

Lemma Qlt_bool_true (x y : Q) : Qlt_bool x y = true <-> (x < y)%Q.
Proof.
  unfold Qlt_bool. rewrite Qlt_alt.
  destruct (x ?= y)%Q; split; congruence.
Qed.

Lemma Qlt_bool_false (x y : Q) : Qlt_bool x y = false <-> (y <= x)%Q.
Proof.
  rewrite <- not_true_iff_false, Qlt_bool_true.
  split; [apply Qnot_lt_le | apply Qle_not_lt].
Qed.

Lemma placed_after_true (i j : nat) :
  placed_after low_first row i j = true -> above row j i.
Proof.
  unfold placed_after, above. destruct low_first.
  - intros H. apply Qlt_bool_true in H. now apply Qlt_le_weak.
  - apply Qle_bool_imp_le.
Qed.

Lemma placed_after_false (i j : nat) :
  placed_after low_first row i j = false -> above row i j.
Proof.
  unfold placed_after, above. destruct low_first.
  - apply Qlt_bool_false.
  - intros H. apply Qlt_le_weak, Qnot_le_lt. intros Hle.
    apply Qle_bool_iff in Hle. congruence.
Qed.

Lemma insert_desc_sorted (i : nat) (l : list nat) :
  StronglySorted (above row) l ->
  StronglySorted (above row) (insert_desc low_first row i l).
Proof.
  induction 1 as [|j l Hl IH Hj]; simpl.
  - constructor; constructor.
  - destruct (placed_after _ _ _ _) eqn:E.
    + constructor; [exact IH|].
      apply List.Forall_forall. intros x Hx.
      apply insert_desc_In in Hx as [->|Hx].
      * now apply placed_after_true.
      * rewrite List.Forall_forall in Hj. now apply Hj.
    + apply placed_after_false in E.
      constructor; [now constructor|].
      constructor; [exact E|].
      rewrite List.Forall_forall in Hj. apply List.Forall_forall.
      intros x Hx. unfold above in *.
      eapply Qle_trans; [apply Hj, Hx | exact E].
Qed.

Lemma sort_desc_sorted (idx : list nat) :
  StronglySorted (above row) (sort_desc low_first row idx).
Proof.
  induction idx as [|i idx IH]; simpl; [constructor|].
  now apply insert_desc_sorted.
Qed.

End SortFacts.

Section OrderFacts.

Import Torch.
Local Open Scope nat_scope.

Variable row : list Q.

Lemma sorted_app_above (l1 l2 : list nat) :
  StronglySorted (above row) (l1 ++ l2) ->
  forall a b, In a l1 -> In b l2 -> above row a b.
Proof.
  induction l1 as [|x l1 IH]; simpl; intros H a b Ha Hb; [contradiction|].
  inversion H as [|? ? Hs Hf]; subst.
  destruct Ha as [->|Ha].
  - rewrite List.Forall_forall in Hf. apply Hf, in_or_app. now right.
  - now apply IH.
Qed.

Lemma sorted_app_l (l1 l2 : list nat) :
  StronglySorted (above row) (l1 ++ l2) -> StronglySorted (above row) l1.
Proof.
  induction l1 as [|x l1 IH]; simpl; intros H; [constructor|].
  inversion H as [|? ? Hs Hf]; subst.
  constructor; [now apply IH|].
  rewrite List.Forall_forall in *. intros y Hy. apply Hf, in_or_app. now left.
Qed.

Lemma sorted_app_r (l1 l2 : list nat) :
  StronglySorted (above row) (l1 ++ l2) -> StronglySorted (above row) l2.
Proof.
  induction l1 as [|x l1 IH]; simpl; intros H; [exact H|].
  inversion H; subst. now apply IH.
Qed.

Lemma firstn_In (x k : nat) (l : list nat) : In x (firstn k l) -> In x l.
Proof.
  revert k. induction l as [|y l IH]; intros k H.
  - now rewrite firstn_nil in H.
  - destruct k as [|k]; [contradiction|].
    destruct H as [->|H]; [now left | right; eapply IH, H].
Qed.

Lemma NoDup_firstn (k : nat) (l : list nat) :
  List.NoDup l -> List.NoDup (firstn k l).
Proof.
  intros H. revert k. induction H as [|x l Hx Hl IH]; intros k.
  - rewrite firstn_nil. constructor.
  - destruct k as [|k]; simpl; constructor; [|apply IH].
    intros Hin. apply Hx. eapply firstn_In, Hin.
Qed.

End OrderFacts.

(** Both sorts give what [topk] promises. *)
Lemma select_selection (low_first : bool) : Torch.selection (Torch.select low_first).
Proof.
  constructor; unfold Torch.select.
  - intros k row Hk. rewrite length_firstn, argsort_desc_length. lia.
  - intros k row. apply NoDup_firstn, argsort_desc_NoDup.
  - intros k row i Hi. eapply argsort_desc_In, firstn_In, Hi.
  - intros k row. apply (sorted_app_l row _ (skipn k (Torch.argsort_desc low_first row))).
    rewrite firstn_skipn. apply sort_desc_sorted.
  - intros k row i j Hi Hj Hnj.
    assert (Hs : StronglySorted (Torch.above row)
                   (firstn k (Torch.argsort_desc low_first row)
                    ++ skipn k (Torch.argsort_desc low_first row))).
    { rewrite firstn_skipn. apply sort_desc_sorted. }
    apply (sorted_app_above row _ _ Hs i j Hi).
    apply (argsort_desc_In low_first row) in Hj.
    rewrite <- (firstn_skipn k (Torch.argsort_desc low_first row)) in Hj.
    apply in_app_or in Hj as [Hj|Hj]; [contradiction | exact Hj].
Qed.

(* ------------------------------------------------------------------ *)
(** ** accuracy: the count of the code and the classes of highest score *)

Section RankFacts.

Import Torch.
Local Open Scope nat_scope.

Variable sel : nat -> list Q -> list nat.
Hypothesis Hsel : selection sel.
Variable row : list Q.

Lemma higher_In (label j : nat) :
  In j (higher row label)
  <-> j < length row /\ (score row label < score row j)%Q.
Proof.
  unfold higher. rewrite filter_In, in_seq, Qlt_bool_true. intuition lia.
Qed.

Lemma higher_NoDup (label : nat) : List.NoDup (higher row label).
Proof. apply List.NoDup_filter, seq_NoDup. Qed.

Lemma untied_spec (label j : nat) :
  untied row label = true -> j < length row -> j <> label ->
  ~ (score row j == score row label)%Q.
Proof.
  unfold untied. rewrite forallb_forall. intros H Hj Hne E.
  specialize (H j). rewrite in_seq in H. specialize (H ltac:(lia)).
  apply orb_prop in H as [H|H].
  - apply Nat.eqb_eq in H. contradiction.
  - apply negb_true_iff in H. apply Qeq_bool_iff in E. congruence.
Qed.

(** A label found among the first [k] indices selected has fewer than [k]
    classes above it. *)
Lemma selected_rank (maxk k label : nat) :
  In label (firstn k (sel maxk row)) ->
  label < length row /\ rank row label < k.
Proof.
  intros Hin.
  assert (Hs : In label (sel maxk row)) by (eapply firstn_In, Hin).
  split; [eapply sel_bound; eassumption|].
  destruct (in_split _ _ Hin) as (l1 & l2 & Hpre).
  assert (Hsplit : sel maxk row = l1 ++ label :: (l2 ++ skipn k (sel maxk row))).
  { rewrite <- (firstn_skipn k (sel maxk row)) at 1. rewrite Hpre.
    now rewrite <- List.app_assoc. }
  assert (Hincl : incl (higher row label) l1).
  { intros j Hj. apply higher_In in Hj as [Hj Hlt].
    destruct (in_dec Nat.eq_dec j (sel maxk row)) as [Hjs|Hjs].
    - rewrite Hsplit in Hjs. apply in_app_or in Hjs as [Hjs|Hjs]; [exact Hjs|].
      exfalso. pose proof (sel_sorted sel Hsel maxk row) as Hsorted.
      rewrite Hsplit in Hsorted. apply sorted_app_r in Hsorted.
      inversion Hsorted as [|? ? _ Hf]; subst.
      destruct Hjs as [<-|Hjs]; [exact (Qlt_irrefl _ Hlt)|].
      rewrite List.Forall_forall in Hf. specialize (Hf j Hjs).
      exact (Qlt_not_le _ _ Hlt Hf).
    - exfalso. pose proof (sel_highest sel Hsel maxk row label j Hs Hj Hjs) as Hle.
      exact (Qlt_not_le _ _ Hlt Hle). }
  pose proof (NoDup_incl_length (higher_NoDup label) Hincl) as Hlen.
  pose proof (firstn_le_length k (sel maxk row)) as Hk.
  rewrite Hpre, List.length_app in Hk. simpl in Hk.
  unfold rank. lia.
Qed.

(** A class with fewer than [k] classes above it, and none at its own
    score, is among the first [k] indices selected. *)
Lemma rank_selected (maxk k label : nat) :
  k <= maxk -> maxk <= length row ->
  untied row label = true ->
  label < length row -> rank row label < k ->
  In label (firstn k (sel maxk row)).
Proof.
  intros Hk Hmaxk Hun Hlabel Hrank.
  destruct (in_dec Nat.eq_dec label (firstn k (sel maxk row))) as [Hin|Hnin];
    [exact Hin | exfalso].
  assert (Hincl : incl (firstn k (sel maxk row)) (higher row label)).
  { intros x Hx.
    assert (Hxs : In x (sel maxk row)) by (eapply firstn_In, Hx).
    assert (Hxn : x < length row) by (eapply sel_bound; eassumption).
    assert (Hne : x <> label) by (intros ->; contradiction).
    apply higher_In. split; [exact Hxn|].
    assert (Hle : (score row label <= score row x)%Q).
    { destruct (in_dec Nat.eq_dec label (sel maxk row)) as [Hls|Hls].
      - pose proof (sel_sorted sel Hsel maxk row) as Hsorted.
        rewrite <- (firstn_skipn k (sel maxk row)) in Hsorted, Hls.
        apply in_app_or in Hls as [Hls|Hls]; [contradiction|].
        exact (sorted_app_above row _ _ Hsorted x label Hx Hls).
      - exact (sel_highest sel Hsel maxk row x label Hxs Hlabel Hls). }
    apply Qle_lteq in Hle as [Hlt|Heq]; [exact Hlt|].
    exfalso. apply (untied_spec label x Hun Hxn Hne). now symmetry. }
  pose proof (NoDup_incl_length
                (NoDup_firstn k _ (sel_NoDup sel Hsel maxk row)) Hincl) as Hlen.
  rewrite length_firstn, (sel_length sel Hsel maxk row Hmaxk) in Hlen.
  unfold rank in Hrank. lia.
Qed.

(** The test of the code and the test of the claim agree on a label that
    ties with no other class. *)
Lemma hit_in_top_k (maxk k label : nat) :
  k <= maxk -> maxk <= length row ->
  untied row label = true ->
  hit sel maxk k row label = in_top_k k row label.
Proof.
  intros Hk Hmaxk Hun. unfold hit, in_top_k.
  destruct (existsb (Nat.eqb label) (firstn k (sel maxk row))) eqn:E.
  - apply existsb_exists in E as (x & Hx & Hlx).
    apply Nat.eqb_eq in Hlx. subst x.
    destruct (selected_rank maxk k label Hx) as [H1 H2].
    symmetry. apply andb_true_intro. split; now apply Nat.ltb_lt.
  - symmetry. apply not_true_iff_false. intros H.
    apply andb_prop in H as [H1 H2].
    apply Nat.ltb_lt in H1. apply Nat.ltb_lt in H2.
    pose proof (rank_selected maxk k label Hk Hmaxk Hun H1 H2) as Hin.
    apply not_true_iff_false in E. apply E.
    apply existsb_exists. exists label. split; [exact Hin | apply Nat.eqb_refl].
Qed.

(** The only class of the highest score ties with no class and has no
    class above it. *)
Lemma strict_argmax_untied (label : nat) :
  strict_argmax row label = true -> untied row label = true.
Proof.
  unfold strict_argmax, untied. intros H. apply andb_prop in H as [_ H].
  rewrite forallb_forall in *. intros j Hj. specialize (H j Hj).
  apply orb_prop in H as [H|H]; [now rewrite H|].
  apply orb_true_intro. right. apply negb_true_iff, not_true_iff_false.
  intros E. apply Qeq_bool_iff in E. apply Qlt_bool_true in H.
  rewrite E in H. exact (Qlt_irrefl _ H).
Qed.

Lemma strict_argmax_top1 (label : nat) :
  strict_argmax row label = true -> in_top_k 1 row label = true.
Proof.
  unfold strict_argmax, in_top_k. intros H. apply andb_prop in H as [Hl H].
  rewrite Hl. simpl. apply Nat.ltb_lt.
  assert (E : higher row label = []).
  { destruct (higher row label) as [|j l] eqn:Eh; [reflexivity | exfalso].
    assert (Hj : In j (higher row label)) by (rewrite Eh; now left).
    apply higher_In in Hj as [Hj Hlt].
    rewrite forallb_forall in H. specialize (H j). rewrite in_seq in H.
    specialize (H ltac:(lia)). apply orb_prop in H as [H|H].
    - apply Nat.eqb_eq in H. subst j. exact (Qlt_irrefl _ Hlt).
    - apply Qlt_bool_true in H. exact (Qlt_irrefl _ (Qlt_trans _ _ _ H Hlt)). }
  unfold rank. rewrite E. simpl. lia.
Qed.

End RankFacts.

Section CountFacts.

Local Open Scope nat_scope.

Lemma count_true_cons (b : bool) (l : list bool) :
  count_true (b :: l) = (if b then 1 else 0) + count_true l.
Proof. unfold count_true. simpl. now destruct b. Qed.

Lemma count_true_app (l1 l2 : list bool) :
  count_true (l1 ++ l2) = count_true l1 + count_true l2.
Proof. unfold count_true. now rewrite List.filter_app, List.length_app. Qed.

Lemma col_hits_step (i : nat) (idx : list nat) (pred : list (list nat))
    (target : list nat) :
  col_hits (i :: idx) pred target
  = count_true (Torch.eq_row (map (fun r => nth i r 0) pred) target)
    + col_hits idx pred target.
Proof. unfold col_hits. simpl. apply count_true_app. Qed.

Lemma col_hits_nil (idx : list nat) (target : list nat) :
  col_hits idx [] target = 0.
Proof.
  induction idx as [|i idx IH]; [reflexivity|].
  rewrite col_hits_step, IH. reflexivity.
Qed.

Lemma hits_cons (label x : nat) (l : list nat) :
  hits label (x :: l) = (if label =? x then 1 else 0) + hits label l.
Proof. unfold hits. simpl. now destruct (label =? x). Qed.

Lemma col_hits_cons (idx : list nat) (p : list nat) (pred : list (list nat))
    (label : nat) (target : list nat) :
  col_hits idx (p :: pred) (label :: target)
  = hits label (map (fun i => nth i p 0) idx) + col_hits idx pred target.
Proof.
  induction idx as [|i idx IH]; [reflexivity|].
  rewrite !col_hits_step, IH. simpl map. simpl Torch.eq_row.
  rewrite count_true_cons, hits_cons, (Nat.eqb_sym label). lia.
Qed.

Lemma map_nth_seq (p : list nat) (k : nat) :
  k <= length p -> map (fun i => nth i p 0) (seq 0 k) = firstn k p.
Proof.
  revert k. induction p as [|x p IH]; intros k Hk; simpl in Hk.
  - now replace k with 0 by lia.
  - destruct k as [|k]; [reflexivity|].
    simpl. rewrite <- seq_shift, map_map. simpl.
    now rewrite IH by lia.
Qed.

Lemma hits_NoDup (label : nat) (l : list nat) :
  List.NoDup l -> hits label l = if existsb (Nat.eqb label) l then 1 else 0.
Proof.
  unfold hits. induction 1 as [|x l Hx Hl IH]; simpl; [reflexivity|].
  destruct (Nat.eqb_spec label x) as [->|Hne]; simpl; [|exact IH].
  rewrite IH.
  destruct (existsb (Nat.eqb x) l) eqn:E; [|reflexivity].
  apply existsb_exists in E as (y & Hy & Hxy).
  apply Nat.eqb_eq in Hxy. subst y. contradiction.
Qed.

(** Summing [correct[:k]] row by row counts, example by example, the
    labels found among the first [k] predictions. *)
Lemma col_hits_num_hits (sel : nat -> list Q -> list nat) (k maxk : nat)
    (rows : list (list Q)) (target : list nat) :
  Torch.selection sel ->
  k <= maxk ->
  Forall (fun r => maxk <= length r) rows ->
  length target = length rows ->
  col_hits (seq 0 k) (map (sel maxk) rows) target
  = num_hits sel maxk k rows target.
Proof.
  intros Hsel Hk Hrows. revert target.
  induction Hrows as [|row rows Hrow Hrows IH]; intros target Hlen.
  - simpl. apply col_hits_nil.
  - destruct target as [|label target]; [discriminate|].
    simpl in Hlen. simpl map. rewrite col_hits_cons.
    rewrite IH by lia. simpl num_hits. f_equal.
    rewrite map_nth_seq
      by (rewrite (Torch.sel_length sel Hsel maxk row Hrow); exact Hk).
    rewrite hits_NoDup
      by apply NoDup_firstn, (Torch.sel_NoDup sel Hsel).
    reflexivity.
Qed.

End CountFacts.

Section AccuracyFacts.

Local Open Scope nat_scope.

Lemma fold_max_ge (l : list nat) (k : nat) :
  k <= fold_left Nat.max l k /\ List.Forall (fun x => x <= fold_left Nat.max l k) l.
Proof.
  revert k. induction l as [|x l IH]; intros k; simpl.
  - split; [lia | constructor].
  - destruct (IH (Nat.max k x)) as [H1 H2].
    split; [lia|]. constructor; [lia | exact H2].
Qed.

Lemma fold_max_In (l : list nat) (k : nat) : In (fold_left Nat.max l k) (k :: l).
Proof.
  revert k. induction l as [|x l IH]; intros k; simpl.
  - now left.
  - destruct (IH (Nat.max k x)) as [H|H].
    + destruct (Nat.max_spec k x) as [[_ E]|[_ E]]; rewrite E in *;
        [right; left | left]; exact H.
    + right. now right.
Qed.

(** [max(topk)] of a tuple that is not empty is one of its members and
    bounds them all. *)
Lemma py_max_list_ok (topk : list nat) :
  topk <> [] ->
  py_max_list topk = Ok (max_of topk)
  /\ In (max_of topk) topk /\ List.Forall (fun k => k <= max_of topk) topk.
Proof.
  destruct topk as [|k l]; [congruence|]. intros _.
  split; [reflexivity|].
  split; [apply fold_max_In|].
  destruct (fold_max_ge l k). now constructor.
Qed.

Lemma for_each_ok {A B : Type} (l : list A) (f : A -> res B) (g : A -> B) :
  (forall a, In a l -> f a = Ok (g a)) -> for_each l f = Ok (map g l).
Proof.
  induction l as [|a l IH]; intros H; simpl; [reflexivity|].
  rewrite (H a) by now left. simpl.
  rewrite IH by (intros b Hb; apply H; now right). reflexivity.
Qed.

(** The loop stops at the first exception. *)
Lemma for_each_raise {A B : Type} (l : list A) (f : A -> res B) (e : exn) :
  (exists a, In a l /\ f a = Raise e) ->
  (forall a, In a l -> f a = Raise e \/ exists b, f a = Ok b) ->
  for_each l f = Raise e.
Proof.
  induction l as [|a l IH]; intros (x & Hx & Hfx) Hall; [contradiction|].
  simpl. destruct (Hall a (or_introl eq_refl)) as [Ha|[b Ha]]; rewrite Ha;
    [reflexivity|]. simpl.
  destruct Hx as [->|Hx]; [congruence|].
  rewrite IH; [reflexivity | now exists x |].
  intros y Hy. apply Hall. now right.
Qed.

Lemma eq_row_length (r e : list nat) :
  length (Torch.eq_row r e) = Nat.min (length r) (length e).
Proof.
  revert e. induction r as [|x r IH]; intros [|y e]; simpl; auto.
Qed.

(** A slice of a single row, or of rows of a single entry, is viewed
    flat. *)
Lemma view_flat_ok (c : list (list bool)) :
  length c <= 1 \/ List.Forall (fun r => length r <= 1) c ->
  Torch.view_flat c = Ok (concat c).
Proof.
  intros H. unfold Torch.view_flat.
  destruct c as [|r [|r' c]]; try reflexivity.
  destruct H as [H|H]; [simpl in H; lia|].
  inversion H as [|? ? Hr _]; subst.
  destruct (Nat.leb_spec 2 (length r)); [lia | reflexivity].
Qed.

(** A slice of two rows or more, of two entries or more each, is not. *)
Lemma view_flat_raise (c : list (list bool)) (b : nat) :
  2 <= length c -> 2 <= b -> List.Forall (fun r => length r = b) c ->
  Torch.view_flat c = Raise Torch.view_error.
Proof.
  intros Hc Hb H. unfold Torch.view_flat.
  destruct c as [|r [|r' c]]; simpl in Hc; try lia.
  inversion H as [|? ? Hr _]; subst.
  destruct (Nat.leb_spec 2 (length r)); [reflexivity | lia].
Qed.

Lemma correct_rows_firstn (k maxk : nat) (pred : list (list nat)) (target : list nat) :
  k <= maxk ->
  firstn k (correct_rows maxk pred target)
  = map (fun i => Torch.eq_row (map (fun r => nth i r 0) pred) target) (seq 0 k).
Proof.
  intros Hk. unfold correct_rows, Torch.t.
  now rewrite map_map, firstn_map, take_seq, Nat.min_l by assumption.
Qed.

Lemma correct_rows_width (k maxk : nat) (pred : list (list nat)) (target : list nat) :
  k <= maxk -> length target = length pred ->
  List.Forall (fun r => length r = length pred)
    (firstn k (correct_rows maxk pred target)).
Proof.
  intros Hk Hlen. rewrite correct_rows_firstn by assumption.
  apply List.Forall_forall. intros r Hr.
  apply in_map_iff in Hr as (i & <- & _).
  rewrite eq_row_length, length_map. lia.
Qed.

Lemma correct_rows_height (k maxk : nat) (pred : list (list nat)) (target : list nat) :
  k <= maxk -> length (firstn k (correct_rows maxk pred target)) = k.
Proof.
  intros Hk. rewrite correct_rows_firstn by assumption.
  now rewrite length_map, length_seq.
Qed.

(** The sum over [correct[:k]], for [k] no larger than [maxk]. *)
Lemma sum_float_correct (k maxk : nat) (pred : list (list nat)) (target : list nat) :
  k <= maxk ->
  Torch.sum_float (concat (firstn k (correct_rows maxk pred target)))
  = inject_Z (Z.of_nat (col_hits (seq 0 k) pred target)).
Proof.
  intros Hk. rewrite correct_rows_firstn by assumption. reflexivity.
Qed.

(** The call up to its loop, for a [topk] it accepts. *)
Lemma accuracy_loop (sel : nat -> list Q -> list nat) (output : Torch.tensor2)
    (target topk : list nat) :
  topk <> [] ->
  max_of topk <= Torch.ncols output ->
  length target = length (Torch.rows output) ->
  accuracy sel output target topk
  = for_each topk (fun k =>
      do flat <- Torch.view_flat
                   (firstn k (correct_rows (max_of topk)
                                (map (sel (max_of topk)) (Torch.rows output))
                                target));
      do scale <- py_div 100 (inject_Z (Z.of_nat (length target)));
      Ok (Torch.sum_float flat * scale)%Q).
Proof.
  intros Hne Hmax Hlen.
  destruct (py_max_list_ok topk Hne) as (Hpy & _ & _).
  unfold accuracy. rewrite Hpy. simpl bind. unfold Torch.topk.
  destruct (Nat.ltb_spec (Torch.ncols output) (max_of topk)) as [Hlt|_]; [lia|].
  simpl bind. unfold Torch.expand_row.
  rewrite (proj2 (Nat.eqb_eq _ _) Hlen). reflexivity.
Qed.

Lemma py_div_100_ok (n : nat) :
  n <> 0 ->
  py_div 100 (inject_Z (Z.of_nat n)) = Ok (100 / inject_Z (Z.of_nat n))%Q.
Proof.
  intros Hn. unfold py_div.
  destruct (Qeq_bool (inject_Z (Z.of_nat n)) 0) eqn:E; [|reflexivity].
  apply Qeq_bool_eq in E. unfold Qeq in E. simpl in E. lia.
Qed.

Lemma view_ok_slice (k maxk : nat) (pred : list (list nat)) (target topk : list nat) :
  view_ok (length pred) topk = true -> In k topk ->
  k <= maxk -> length target = length pred ->
  Torch.view_flat (firstn k (correct_rows maxk pred target))
  = Ok (concat (firstn k (correct_rows maxk pred target))).
Proof.
  intros Hv Hin Hk Hlen. apply view_flat_ok.
  unfold view_ok in Hv. apply orb_prop in Hv as [Hv|Hv].
  - right. apply Nat.leb_le in Hv.
    eapply List.Forall_impl; [|apply correct_rows_width; assumption].
    intros r Hr. simpl in Hr. lia.
  - left. rewrite forallb_forall in Hv. specialize (Hv k Hin).
    apply Nat.leb_le in Hv. rewrite correct_rows_height by assumption. exact Hv.
Qed.

(** On the slices that [view] accepts the call returns, for each [k], the
    count of the labels found among the first [k] indices selected, times
    [100 / batch_size]. *)
Lemma accuracy_ok (sel : nat -> list Q -> list nat) (output : Torch.tensor2)
    (target : list nat) (topk : list nat) :
  Torch.selection sel ->
  Torch.wf output ->
  Torch.rows output <> [] ->
  length target = length (Torch.rows output) ->
  topk <> [] ->
  List.Forall (fun k => k <= Torch.ncols output) topk ->
  view_ok (length (Torch.rows output)) topk = true ->
  accuracy sel output target topk
  = Ok (map (fun k => appended sel topk k output target) topk).
Proof.
  intros Hsel Hwf Hrows Hlen Htopk Hk Hview.
  destruct (py_max_list_ok topk Htopk) as (_ & Hin & Hle).
  assert (Hmaxk : max_of topk <= Torch.ncols output).
  { rewrite List.Forall_forall in Hk. now apply Hk. }
  rewrite accuracy_loop by assumption.
  apply for_each_ok. intros k Hkin.
  assert (Hkm : k <= max_of topk).
  { rewrite List.Forall_forall in Hle. now apply Hle. }
  rewrite (view_ok_slice k (max_of topk) _ target topk);
    [| now rewrite length_map | assumption | assumption
     | now rewrite length_map].
  simpl bind. rewrite sum_float_correct by assumption.
  rewrite (col_hits_num_hits sel k (max_of topk)); try assumption.
  - rewrite py_div_100_ok; [reflexivity|].
    rewrite Hlen. destruct (Torch.rows output); [congruence | discriminate].
  - unfold Torch.wf in Hwf. rewrite List.Forall_forall in Hwf.
    apply List.Forall_forall. intros r Hr. rewrite (Hwf r Hr). exact Hmaxk.
Qed.

Lemma num_hits_in_top_k (sel : nat -> list Q -> list nat) (maxk k : nat)
    (rows : list (list Q)) (target : list nat) :
  Torch.selection sel ->
  k <= maxk ->
  Forall (fun r => maxk <= length r) rows ->
  all_untied rows target = true ->
  num_hits sel maxk k rows target = num_in_top_k k rows target.
Proof.
  intros Hsel Hk Hrows. revert target.
  induction Hrows as [|row rows Hrow _ IH]; intros target Hun; [reflexivity|].
  destruct target as [|label target]; [reflexivity|].
  simpl in Hun. apply andb_prop in Hun as [Hun1 Hun2].
  simpl. rewrite (IH target Hun2).
  now rewrite (hit_in_top_k sel Hsel row (maxk) k label Hk Hrow Hun1).
Qed.

Lemma batch_size_pos (output : Torch.tensor2) :
  Torch.rows output <> [] ->
  (0 < inject_Z (Z.of_nat (length (Torch.rows output))))%Q.
Proof.
  intros H. unfold Qlt. simpl.
  destruct (Torch.rows output); [congruence | simpl; lia].
Qed.

Lemma appended_percent (sel : nat -> list Q -> list nat) (topk : list nat) (k : nat)
    (output : Torch.tensor2) (target : list nat) :
  Torch.selection sel -> Torch.wf output ->
  Torch.rows output <> [] ->
  length target = length (Torch.rows output) ->
  k <= max_of topk -> max_of topk <= Torch.ncols output ->
  all_untied (Torch.rows output) target = true ->
  (appended sel topk k output target == percent_in_top_k k output target)%Q.
Proof.
  intros Hsel Hwf Hrows Hlen Hk Hmax Hun. unfold appended, percent_in_top_k.
  rewrite (num_hits_in_top_k sel (max_of topk) k); try assumption.
  - rewrite Hlen. field. intros E.
    pose proof (batch_size_pos output Hrows) as Hb. rewrite E in Hb. discriminate.
  - unfold Torch.wf in Hwf. rewrite List.Forall_forall in Hwf.
    apply List.Forall_forall. intros r Hr. rewrite (Hwf r Hr). exact Hmax.
Qed.

Lemma all_strict_argmax_untied (rows : list (list Q)) (target : list nat) :
  all_strict_argmax rows target = true -> all_untied rows target = true.
Proof.
  revert target. induction rows as [|row rows IH]; intros [|label target] H;
    try reflexivity.
  simpl in *. apply andb_prop in H as [H1 H2].
  now rewrite (strict_argmax_untied row label H1), (IH target H2).
Qed.

Lemma all_strict_argmax_count (rows : list (list Q)) (target : list nat) :
  all_strict_argmax rows target = true ->
  num_in_top_k 1 rows target = length rows.
Proof.
  revert target. induction rows as [|row rows IH]; intros [|label target] H;
    try reflexivity; try discriminate.
  simpl in *. apply andb_prop in H as [H1 H2].
  now rewrite (strict_argmax_top1 row label H1), (IH target H2).
Qed.

Lemma Forall2_map_self {A B : Type} (R : B -> A -> Prop) (f : A -> B) (l : list A) :
  (forall a, In a l -> R (f a) a) -> List.Forall2 R (map f l) l.
Proof.
  induction l as [|a l IH]; intros H; simpl; constructor.
  - apply H. now left.
  - apply IH. intros b Hb. apply H. now right.
Qed.

End AccuracyFacts.

(** C8 as the claim words it fails twice.  Among equal scores [topk] need
    not select the labelled class: the label 0 of the row [2, 1, 2, 1, 2]
    has the highest score, and a selection that takes another class of
    that score leaves 0 per cent.  And a batch of several examples with a
    [k] of 2 or more makes the call raise, the slice [correct[:k]] not
    being viewable flat. *)
Lemma accuracy_percent_counterexample :
  let tied := Torch.mkTensor 5 [[2; 1; 2; 1; 2]]%Q in
  let batch := Torch.mkTensor 3 [[1; 3; 2]; [5; 5; 1]; [0; 1; 2]]%Q in
  (Torch.selection (Torch.select false)
   /\ forallb (fun j => Qle_bool (Torch.score [2; 1; 2; 1; 2]%Q j)
                          (Torch.score [2; 1; 2; 1; 2]%Q 0))
        (seq 0 5) = true
   /\ accuracy (Torch.select false) tied [0%nat] [1%nat] = Ok [0%Q])
  /\ accuracy (Torch.select true) batch [1; 1; 0]%nat [1; 2]%nat
     = Raise Torch.view_error.
Proof.
  intros tied batch. split; [split; [|split]|].
  - apply select_selection.
  - reflexivity.
  - vm_compute. reflexivity.
  - vm_compute. reflexivity.
Qed.

(** C8, as the code has it.  For a selection that keeps the promise of
    [topk], a batch that is not empty, one label per example that ties
    with no other class of its example, and a tuple [topk] that is not
    empty and whose members do not exceed the number of classes: when the
    batch has a single example or no [k] exceeds 1, [accuracy] returns one
    value for each [k] of [topk], in the order of [topk], each equal to
    100 times the number of examples whose label is among the [k]
    highest-scored classes of the example, divided by the number of
    examples.  When every label is the one highest-scored class of its
    example, [accuracy(output, target, (1,))] is [[100]]. *)
Theorem accuracy_percent (sel : nat -> list Q -> list nat)
    (output : Torch.tensor2) (target topk : list nat) :
  Torch.selection sel ->
  Torch.wf output ->
  Torch.rows output <> [] ->
  length target = length (Torch.rows output) ->
  topk <> [] ->
  List.Forall (fun k => (k <= Torch.ncols output)%nat) topk ->
  all_untied (Torch.rows output) target = true ->
  view_ok (length (Torch.rows output)) topk = true ->
  (exists res,
      accuracy sel output target topk = Ok res
      /\ length res = length topk
      /\ List.Forall2 (fun r k => (r == percent_in_top_k k output target)%Q) res topk)
  /\ (all_strict_argmax (Torch.rows output) target = true ->
      exists r, accuracy sel output target [1%nat] = Ok [r] /\ (r == 100)%Q).
Proof.
  intros Hsel Hwf Hrows Hlen Htopk Hk Hun Hview. split.
  - exists (map (fun k => appended sel topk k output target) topk).
    split; [now apply accuracy_ok|]. split; [apply length_map|].
    destruct (py_max_list_ok topk Htopk) as (_ & Hin & Hle).
    assert (Hmax : (max_of topk <= Torch.ncols output)%nat).
    { rewrite List.Forall_forall in Hk. now apply Hk. }
    apply Forall2_map_self. intros k Hkin.
    apply appended_percent; try assumption.
    rewrite List.Forall_forall in Hle. now apply Hle.
  - intros Hall.
    assert (H1 : (1 <= Torch.ncols output)%nat).
    { unfold Torch.wf in Hwf.
      destruct (Torch.rows output) as [|row rows]; [congruence|].
      destruct target as [|label target]; [discriminate|].
      simpl in Hall. apply andb_prop in Hall as [Hall _].
      unfold strict_argmax in Hall. apply andb_prop in Hall as [Hall _].
      apply Nat.ltb_lt in Hall. inversion Hwf; subst. lia. }
    exists (appended sel [1%nat] 1 output target). split.
    + apply (accuracy_ok sel output target [1%nat]); try assumption.
      * discriminate.
      * now constructor.
      * unfold view_ok. simpl. apply orb_true_r.
    + rewrite appended_percent; try assumption; [|reflexivity].
      unfold percent_in_top_k. rewrite (all_strict_argmax_count _ _ Hall).
      field. intros E. pose proof (batch_size_pos output Hrows) as Hb.
      rewrite E in Hb. discriminate.
Qed.

Lemma accuracy_percent_witness :
  let output := Torch.mkTensor 3 [[1; 3; 2]]%Q in
  let target := [2]%nat in
  let topk := [1; 2]%nat in
  Torch.selection (Torch.select true)
  /\ Torch.wf output
  /\ Torch.rows output <> []
  /\ length target = length (Torch.rows output)
  /\ topk <> []
  /\ List.Forall (fun k => (k <= Torch.ncols output)%nat) topk
  /\ all_untied (Torch.rows output) target = true
  /\ view_ok (length (Torch.rows output)) topk = true
  /\ exists res,
      accuracy (Torch.select true) output target topk = Ok res
      /\ length res = length topk
      /\ List.Forall2 (fun r k => (r == percent_in_top_k k output target)%Q) res topk.
Proof.
  intros output target topk.
  assert (H0 : Torch.selection (Torch.select true)) by apply select_selection.
  assert (H1 : Torch.wf output) by (repeat constructor).
  assert (H2 : Torch.rows output <> []) by discriminate.
  assert (H3 : length target = length (Torch.rows output)) by reflexivity.
  assert (H4 : topk <> []) by discriminate.
  assert (H5 : List.Forall (fun k => (k <= Torch.ncols output)%nat) topk)
    by (repeat constructor).
  assert (H6 : all_untied (Torch.rows output) target = true) by reflexivity.
  assert (H7 : view_ok (length (Torch.rows output)) topk = true) by reflexivity.
  repeat (split; [assumption|]).
  exact (proj1 (accuracy_percent (Torch.select true) output target topk
                  H0 H1 H2 H3 H4 H5 H6 H7)).
Defined.

(* ------------------------------------------------------------------ *)
(** ** Paths *)

Section PathFacts.

Import Path.
Local Open Scope string_scope.

Lemma has_sep_app (a b : string) : has_sep (a ++ b) = has_sep a || has_sep b.
Proof.
  induction a as [|c a IH]; simpl; [reflexivity|].
  now rewrite IH, orb_assoc.
Qed.

Lemma has_sep_app_sep (x name : string) : has_sep (x ++ String "/" name) = true.
Proof. rewrite has_sep_app. simpl. apply orb_true_r. Qed.

Lemma tail_of_no_sep (name : string) : has_sep name = false -> tail_of name = name.
Proof.
  destruct name as [|c r]; simpl; [reflexivity|].
  intros H. apply orb_false_elim in H as [Hc Hr]. now rewrite Hr, Hc.
Qed.

Lemma head_of_no_sep (name : string) : has_sep name = false -> head_of name = "".
Proof.
  destruct name as [|c r]; simpl; [reflexivity|].
  intros H. apply orb_false_elim in H as [Hc Hr]. now rewrite Hr, Hc.
Qed.

Lemma tail_of_app_sep (x name : string) :
  has_sep name = false -> tail_of (x ++ String "/" name) = name.
Proof.
  intros H. induction x as [|c x IH]; simpl.
  - now rewrite H.
  - now rewrite has_sep_app_sep.
Qed.

Lemma head_of_app_sep (x name : string) :
  has_sep name = false -> head_of (x ++ String "/" name) = x ++ "/".
Proof.
  intros H. induction x as [|c x IH]; simpl.
  - now rewrite H.
  - now rewrite has_sep_app_sep, IH.
Qed.

Lemma all_sep_app_sep (x : string) : all_sep (x ++ "/") = all_sep x.
Proof.
  induction x as [|c x IH]; simpl; [reflexivity|]. now rewrite IH.
Qed.

Lemma rstrip_sep_app_sep (x : string) : rstrip_sep (x ++ "/") = rstrip_sep x.
Proof.
  induction x as [|c x IH]; [reflexivity|].
  change (String c x ++ "/") with (String c (x ++ "/")).
  change (rstrip_sep (String c (x ++ "/")))
    with (if all_sep (String c (x ++ "/")) then ""
          else String c (rstrip_sep (x ++ "/"))).
  change (rstrip_sep (String c x))
    with (if all_sep (String c x) then "" else String c (rstrip_sep x)).
  simpl all_sep. now rewrite all_sep_app_sep, IH.
Qed.

Lemma all_sep_ends (x : string) :
  all_sep x = true -> x <> "" -> ends_with_sep x = true.
Proof.
  induction x as [|c x IH]; [congruence|].
  simpl. intros H _. apply andb_prop in H as [Hc Hx].
  destruct x as [|c' x']; [exact Hc|].
  apply IH; [exact Hx | discriminate].
Qed.

Lemma rstrip_sep_empty (h : string) : rstrip_sep h = "" -> all_sep h = true.
Proof.
  destruct h as [|c h]; [reflexivity|].
  change (rstrip_sep (String c h))
    with (if all_sep (String c h) then "" else String c (rstrip_sep h)).
  destruct (all_sep (String c h)); [reflexivity | discriminate].
Qed.

Lemma rstrip_sep_ends (h : string) : ends_with_sep (rstrip_sep h) = false.
Proof.
  induction h as [|c h IH]; [reflexivity|].
  change (rstrip_sep (String c h))
    with (if all_sep (String c h) then "" else String c (rstrip_sep h)).
  destruct (all_sep (String c h)) eqn:E; [reflexivity|].
  destruct (rstrip_sep h) as [|c' r] eqn:Er.
  - apply rstrip_sep_empty in Er. simpl in E. rewrite Er, andb_true_r in E.
    simpl. exact E.
  - exact IH.
Qed.

Lemma rstrip_sep_id (x : string) : ends_with_sep x = false -> rstrip_sep x = x.
Proof.
  induction x as [|c x IH]; [reflexivity|]. intros H.
  change (rstrip_sep (String c x))
    with (if all_sep (String c x) then "" else String c (rstrip_sep x)).
  destruct (all_sep (String c x)) eqn:E.
  - apply all_sep_ends in E; [congruence | discriminate].
  - f_equal. apply IH. destruct x; [reflexivity | exact H].
Qed.

Lemma ends_with_sep_split (d : string) :
  ends_with_sep d = true -> exists x, d = x ++ "/".
Proof.
  induction d as [|c d IH]; [discriminate|].
  destruct d as [|c' d'].
  - intros H. change (Ascii.eqb c "/" = true) in H.
    apply Ascii.eqb_eq in H. subst c. now exists "".
  - intros H. destruct (IH H) as [x Hx]. exists (String c x).
    change (String c x ++ "/") with (String c (x ++ "/")). now f_equal.
Qed.

Lemma app_assoc_sep (x name : string) : (x ++ "/") ++ name = x ++ String "/" name.
Proof.
  induction x as [|c x IH]; [reflexivity|].
  change (String c ((x ++ "/") ++ name) = String c (x ++ String "/" name)).
  now f_equal.
Qed.

(** What [dirname] returns is made of separators only, or is not empty
    and does not end with one. *)
Lemma dirname_shape (p : string) :
  all_sep (dirname p) = true
  \/ (dirname p <> "" /\ ends_with_sep (dirname p) = false).
Proof.
  unfold dirname.
  destruct (String.eqb_spec (head_of p) "") as [E|E]; simpl.
  - left. now rewrite E.
  - destruct (all_sep (head_of p)) eqn:Ea; simpl; [now left|].
    right. split; [|apply rstrip_sep_ends].
    intros H. apply rstrip_sep_empty in H. congruence.
Qed.

(** A file name joined to a directory has that name. *)
Lemma basename_join (d name : string) :
  has_sep name = false -> basename (join d name) = name.
Proof.
  intros H. unfold basename, join.
  assert (Hs : starts_with_sep name = false).
  { destruct name as [|c r]; [reflexivity|]. simpl in *.
    now apply orb_false_elim in H as [Hc _]. }
  rewrite Hs.
  destruct (String.eqb_spec d "") as [->|Hd]; simpl.
  - now apply tail_of_no_sep.
  - destruct (ends_with_sep d) eqn:E.
    + destruct (ends_with_sep_split d E) as [x ->].
      rewrite app_assoc_sep. now apply tail_of_app_sep.
    + now apply tail_of_app_sep.
Qed.

(** A file name joined to the directory of a path lies in that
    directory. *)
Lemma dirname_join_dirname (p name : string) :
  has_sep name = false -> dirname (join (dirname p) name) = dirname p.
Proof.
  intros H.
  assert (Hs : starts_with_sep name = false).
  { destruct name as [|c r]; [reflexivity|]. simpl in *.
    now apply orb_false_elim in H as [Hc _]. }
  destruct (dirname_shape p) as [Hall | [Hne Hend]];
    set (d := dirname p) in *; unfold join; rewrite Hs.
  - destruct (String.eqb_spec d "") as [->|Hd]; simpl.
    + unfold dirname. now rewrite head_of_no_sep.
    + rewrite (all_sep_ends d Hall Hd).
      destruct (ends_with_sep_split d (all_sep_ends d Hall Hd)) as [x Hx].
      rewrite Hx, app_assoc_sep. unfold dirname.
      rewrite head_of_app_sep by assumption.
      rewrite <- Hx, Hall. now rewrite andb_false_r.
  - destruct (String.eqb_spec d "") as [E|_]; [contradiction|]. simpl.
    rewrite Hend. unfold dirname.
    change ("/" ++ name) with (String "/" name).
    rewrite head_of_app_sep by assumption.
    assert (Hnall : all_sep (d ++ "/") = false).
    { rewrite all_sep_app_sep. destruct (all_sep d) eqn:E; [|reflexivity].
      rewrite (all_sep_ends d E Hne) in Hend. discriminate. }
    rewrite Hnall.
    destruct (String.eqb_spec (d ++ "/") "") as [E|_].
    + destruct d; discriminate.
    + simpl. rewrite rstrip_sep_app_sep. now apply rstrip_sep_id.
Qed.

Lemma has_sep_best_name (best_suffix : string) :
  has_sep (best_name best_suffix) = has_sep best_suffix.
Proof.
  unfold best_name. rewrite !has_sep_app. simpl. apply orb_false_r.
Qed.

End PathFacts.

(* ------------------------------------------------------------------ *)
(** ** save_checkpoint *)

Section CheckpointFacts.

Variable resolve : string -> string.
Context {State : Type}.
Variable serialize : State -> list Byte.byte.
Variable deserialize : list Byte.byte -> option State.
Hypothesis load_save : forall s, deserialize (serialize s) = Some s.

Lemma torch_save_lookup (state : State) (path : string) (fs : filesystem) :
  read_file resolve path (torch_save resolve serialize state path fs)
  = Some (serialize state).
Proof. unfold read_file, torch_save, write_file. apply lookup_insert_eq. Qed.

(** The copy either raises with the files as they were or writes the
    content of the source to the destination. *)
Lemma copyfile_spec (src dst : string) (content : list Byte.byte) (fs : filesystem) :
  read_file resolve src fs = Some content ->
  (resolve src = resolve dst
   /\ copyfile resolve src dst fs = (fs, Raise SameFileError))
  \/ (resolve src <> resolve dst
      /\ copyfile resolve src dst fs = (<[resolve dst := content]> fs, Ok tt)).
Proof.
  intros H. unfold copyfile.
  destruct (String.eqb_spec (resolve src) (resolve dst)) as [E|E];
    [left; now split|].
  right. split; [exact E|]. now rewrite H.
Qed.

(** C9, as the code has it.  After
    [save_checkpoint(state, is_best, filepath, best_suffix)] the file of
    [filepath] holds the serialized state.  When [is_best] holds, so does
    the file of [join(dirname(filepath), 'model_best' + best_suffix +
    '.pth.tar')], both load back as [state], and no other file has
    changed; when [is_best] does not hold, the file of [filepath] is the
    only one written.  The best file has the extension [.pth.tar] whatever
    the name of [filepath]; it lies in the directory of [filepath] under
    the name [model_best{best_suffix}.pth.tar] when [best_suffix] holds no
    separator. *)
Theorem save_checkpoint_files (state : State) (is_best : bool)
    (filepath best_suffix : string) (fs : filesystem) :
  let fs' := fst (save_checkpoint resolve serialize state is_best filepath
                    best_suffix fs) in
  let best := best_path filepath best_suffix in
  read_file resolve filepath fs' = Some (serialize state)
  /\ torch_load resolve deserialize filepath fs' = Some state
  /\ (is_best = true ->
      read_file resolve best fs' = Some (serialize state)
      /\ torch_load resolve deserialize best fs' = Some state
      /\ (forall q, resolve q <> resolve filepath -> resolve q <> resolve best ->
                    read_file resolve q fs' = read_file resolve q fs))
  /\ (is_best = false -> fs' = <[resolve filepath := serialize state]> fs)
  /\ (Path.has_sep best_suffix = false ->
      Path.dirname best = Path.dirname filepath
      /\ Path.basename best = ("model_best" ++ best_suffix ++ ".pth.tar")%string).
Proof.
  intros fs' best.
  assert (Hname : Path.has_sep best_suffix = false ->
      Path.dirname best = Path.dirname filepath
      /\ Path.basename best = ("model_best" ++ best_suffix ++ ".pth.tar")%string).
  { intros Hs. rewrite <- has_sep_best_name in Hs. unfold best, best_path.
    split; [now apply dirname_join_dirname | now apply basename_join]. }
  cut (read_file resolve filepath fs' = Some (serialize state)
       /\ torch_load resolve deserialize filepath fs' = Some state
       /\ (is_best = true ->
           read_file resolve best fs' = Some (serialize state)
           /\ torch_load resolve deserialize best fs' = Some state
           /\ (forall q, resolve q <> resolve filepath -> resolve q <> resolve best ->
                         read_file resolve q fs' = read_file resolve q fs))
       /\ (is_best = false -> fs' = <[resolve filepath := serialize state]> fs)).
  { intros (H1 & H2 & H3 & H4). auto. }
  clear Hname. unfold torch_load.
  pose proof (torch_save_lookup state filepath fs) as Hsaved.
  destruct is_best.
  - unfold fs', save_checkpoint. fold (best_path filepath best_suffix). fold best.
    destruct (copyfile_spec filepath best (serialize state) _ Hsaved)
      as [[E ->] | [E ->]]; simpl.
    + unfold read_file in *. rewrite <- E, Hsaved, load_save.
      repeat split; try discriminate.
      intros q Hq _. unfold torch_save, write_file. now rewrite lookup_insert_ne.
    + unfold read_file in *. rewrite lookup_insert_eq, load_save.
      rewrite lookup_insert_ne by congruence.
      rewrite Hsaved, load_save.
      repeat split; try discriminate.
      intros q Hq Hb. rewrite lookup_insert_ne by congruence.
      unfold torch_save, write_file. now rewrite lookup_insert_ne.
  - unfold fs', save_checkpoint. simpl.
    rewrite Hsaved, load_save.
    repeat split; discriminate.
Qed.

End CheckpointFacts.

Lemma save_checkpoint_files_witness :
  let serialize : list Byte.byte -> list Byte.byte := fun s => s in
  let deserialize : list Byte.byte -> option (list Byte.byte) := Some in
  let state := [Byte.x01; Byte.x02] in
  let fs' := fst (save_checkpoint plain_names serialize state true
                    "run/ckpt.pth.tar" "_x" ∅) in
  (forall s, deserialize (serialize s) = Some s)
  /\ best_path "run/ckpt.pth.tar" "_x" = "run/model_best_x.pth.tar"
  /\ fs' !! "run/ckpt.pth.tar" = Some (serialize state)
  /\ fs' !! "run/model_best_x.pth.tar" = Some (serialize state)
  /\ torch_load plain_names deserialize "run/model_best_x.pth.tar" fs' = Some state.
Proof.
  intros serialize deserialize state fs'.
  assert (H : forall s, deserialize (serialize s) = Some s) by reflexivity.
  split; [exact H|]. split; [reflexivity|].
  destruct (save_checkpoint_files plain_names serialize deserialize H state true
              "run/ckpt.pth.tar" "_x" ∅) as (H1 & _ & H2 & _).
  destruct (H2 eq_refl) as (H3 & H4 & _).
  split; [exact H1|]. split; [exact H3 | exact H4].
Defined.

(** C9 as the claim words it fails: the best file does not take the
    extension of the checkpoint file, and a suffix with a separator puts
    it in another directory. *)
Lemma save_checkpoint_files_counterexample :
  let serialize : list Byte.byte -> list Byte.byte := fun s => s in
  let state := [Byte.x01; Byte.x02] in
  let fs' := fst (save_checkpoint plain_names serialize state true
                    "run/ckpt.pt" "" ∅) in
  (best_path "run/ckpt.pt" "" = "run/model_best.pth.tar"
   /\ fs' !! "run/model_best.pth.tar" = Some state
   /\ fs' !! "run/model_best.pt" = None)
  /\ (best_path "run/ckpt.pth.tar" "/v2" = "run/model_best/v2.pth.tar"
      /\ Path.dirname "run/ckpt.pth.tar" = "run"
      /\ Path.dirname (best_path "run/ckpt.pth.tar" "/v2") = "run/model_best").
Proof.
  intros serialize state fs'.
  split; [|repeat split].
  split; [reflexivity|].
  unfold fs', save_checkpoint, copyfile, torch_save, write_file, read_file,
    plain_names.
  change (Path.join (Path.dirname "run/ckpt.pt") (best_name ""))
    with "run/model_best.pth.tar".
  change ("run/ckpt.pt" =? "run/model_best.pth.tar")%string with false.
  cbn iota. rewrite lookup_insert_eq. cbn [fst].
  split.
  - apply lookup_insert_eq.
  - rewrite !lookup_insert_ne by discriminate. apply lookup_empty.
Qed.
(* ================================================================== *)
(** * Further properties of the schedules *)

Section CyclicLrMore.

Import CyclicLr.
Local Open Scope Q_scope.

(** The schedule has period [num_epochs_per_cycle]: moving the epoch by
    any whole number of cycles, forward or backward, changes nothing of
    what the call gives, its exception included. *)
Theorem CyclicLr_periodic (c : t) (epoch k : Z) :
  call c (epoch + k * num_epochs_per_cycle c) = call c epoch.
Proof.
  unfold call, cur_epoch_in_cycle, py_mod.
  destruct (Z.eqb_spec (num_epochs_per_cycle c) 0) as [E|E]; [reflexivity|].
  replace (epoch + k * num_epochs_per_cycle c - start_epoch c)%Z
    with (epoch - start_epoch c + k * num_epochs_per_cycle c)%Z by ring.
  now rewrite Z.mod_add.
Qed.

(** With a rate that is not negative and a factor in (0, 1], the rate of
    every epoch lies between the rate of the last epoch of a cycle and
    [init_lr]. *)
Theorem CyclicLr_bounds (c : t) (epoch : Z) :
  (0 < num_epochs_per_cycle c)%Z -> (0 < epochs_pro_decay c)%Z ->
  0 <= init_lr c -> 0 < lr_decay_factor c -> lr_decay_factor c <= 1 ->
  exists r,
    call c epoch = Ok r
    /\ r <= init_lr c
    /\ init_lr c
       * lr_decay_factor c ^ ((num_epochs_per_cycle c - 1) / epochs_pro_decay c)
       <= r.
Proof.
  intros Hn Hepd Hinit Hpos Hle.
  pose proof (Z.mod_pos_bound (epoch - start_epoch c) (num_epochs_per_cycle c) Hn)
    as Hb.
  eexists. split.
  { apply (call_at_position c epoch _ (cur_epoch_in_cycle_ok c epoch ltac:(lia)));
      [lia | assumption |].
    apply decay_power_in_range; [assumption | assumption | apply Z.div_pos; lia]. }
  set (pos := ((epoch - start_epoch c) mod num_epochs_per_cycle c)%Z) in *.
  split.
  - rewrite <- (Qmult_1_r (init_lr c)) at 2.
    rewrite !(Qmult_comm (init_lr c)).
    apply Qmult_le_compat_r; [|assumption].
    apply Qpower_le_1; [assumption | assumption | apply Z.div_pos; lia].
  - rewrite !(Qmult_comm (init_lr c)).
    apply Qmult_le_compat_r; [|assumption].
    apply Qpower_antitone; [assumption | assumption |].
    apply Z.div_le_mono; lia.
Qed.

Lemma CyclicLr_bounds_witness :
  let c := mk 5 (1 # 100) (1 # 2) 12 2 in
  (0 < num_epochs_per_cycle c)%Z /\ (0 < epochs_pro_decay c)%Z
  /\ 0 <= init_lr c /\ 0 < lr_decay_factor c /\ lr_decay_factor c <= 1
  /\ exists r,
      call c 3 = Ok r
      /\ r <= init_lr c
      /\ init_lr c
         * lr_decay_factor c ^ ((num_epochs_per_cycle c - 1) / epochs_pro_decay c)
         <= r.
Proof.
  intros c.
  assert (H1 : (0 < num_epochs_per_cycle c)%Z) by reflexivity.
  assert (H2 : (0 < epochs_pro_decay c)%Z) by reflexivity.
  assert (H3 : 0 <= init_lr c) by (unfold Qle; simpl; lia).
  assert (H4 : 0 < lr_decay_factor c) by reflexivity.
  assert (H5 : lr_decay_factor c <= 1) by (unfold Qle; simpl; lia).
  repeat (split; [assumption|]).
  exact (CyclicLr_bounds c 3 H1 H2 H3 H4 H5).
Defined.

(** Inside one cycle the rate never grows: two epochs of the same cycle,
    the second no earlier than the first, have rates in decreasing
    order. *)
Theorem CyclicLr_decreasing_in_cycle (c : t) (e1 e2 : Z) :
  (0 < num_epochs_per_cycle c)%Z -> (0 < epochs_pro_decay c)%Z ->
  0 <= init_lr c -> 0 < lr_decay_factor c -> lr_decay_factor c <= 1 ->
  (e1 <= e2)%Z ->
  ((e1 - start_epoch c) / num_epochs_per_cycle c
   = (e2 - start_epoch c) / num_epochs_per_cycle c)%Z ->
  exists r1 r2, call c e1 = Ok r1 /\ call c e2 = Ok r2 /\ r2 <= r1.
Proof.
  intros Hn Hepd Hinit Hpos Hle He Hcycle.
  pose proof (Z.mod_pos_bound (e1 - start_epoch c) (num_epochs_per_cycle c) Hn).
  pose proof (Z.mod_pos_bound (e2 - start_epoch c) (num_epochs_per_cycle c) Hn).
  assert (Hmod : ((e1 - start_epoch c) mod num_epochs_per_cycle c
                  <= (e2 - start_epoch c) mod num_epochs_per_cycle c)%Z).
  { rewrite !Z.mod_eq by lia. rewrite Hcycle. lia. }
  do 2 eexists.
  split.
  { apply (call_at_position c e1 _ (cur_epoch_in_cycle_ok c e1 ltac:(lia)));
      [lia | assumption |].
    apply decay_power_in_range; [assumption | assumption | apply Z.div_pos; lia]. }
  split.
  { apply (call_at_position c e2 _ (cur_epoch_in_cycle_ok c e2 ltac:(lia)));
      [lia | assumption |].
    apply decay_power_in_range; [assumption | assumption | apply Z.div_pos; lia]. }
  rewrite !(Qmult_comm (init_lr c)).
  apply Qmult_le_compat_r; [|assumption].
  apply Qpower_antitone; [assumption | assumption |].
  apply Z.div_le_mono; lia.
Qed.

Lemma CyclicLr_decreasing_in_cycle_witness :
  let c := mk 5 (1 # 100) (1 # 2) 12 2 in
  (0 < num_epochs_per_cycle c)%Z /\ (0 < epochs_pro_decay c)%Z
  /\ 0 <= init_lr c /\ 0 < lr_decay_factor c /\ lr_decay_factor c <= 1
  /\ (6 <= 15)%Z
  /\ ((6 - start_epoch c) / num_epochs_per_cycle c
      = (15 - start_epoch c) / num_epochs_per_cycle c)%Z
  /\ exists r1 r2, call c 6 = Ok r1 /\ call c 15 = Ok r2 /\ r2 <= r1.
Proof.
  intros c.
  assert (H1 : (0 < num_epochs_per_cycle c)%Z) by reflexivity.
  assert (H2 : (0 < epochs_pro_decay c)%Z) by reflexivity.
  assert (H3 : 0 <= init_lr c) by (unfold Qle; simpl; lia).
  assert (H4 : 0 < lr_decay_factor c) by reflexivity.
  assert (H5 : lr_decay_factor c <= 1) by (unfold Qle; simpl; lia).
  assert (H6 : (6 <= 15)%Z) by lia.
  assert (H7 : ((6 - start_epoch c) / num_epochs_per_cycle c
                = (15 - start_epoch c) / num_epochs_per_cycle c)%Z) by reflexivity.
  repeat (split; [assumption|]).
  exact (CyclicLr_decreasing_in_cycle c 6 15 H1 H2 H3 H4 H5 H6 H7).
Defined.

(** A cycle length or a decay period of 0 makes every call raise
    [ZeroDivisionError]. *)
Theorem CyclicLr_zero_period (c : t) (epoch : Z) :
  num_epochs_per_cycle c = 0%Z \/ epochs_pro_decay c = 0%Z ->
  call c epoch = Raise ZeroDivisionError.
Proof.
  intros H. unfold call, cur_epoch_in_cycle, py_mod.
  destruct (Z.eqb_spec (num_epochs_per_cycle c) 0) as [E|E]; [reflexivity|].
  destruct H as [H|H]; [contradiction|].
  simpl. unfold py_truediv. now rewrite H.
Qed.

Lemma CyclicLr_zero_period_witness :
  let c := mk 0 (1 # 100) (1 # 2) 12 0 in
  (num_epochs_per_cycle c = 0%Z \/ epochs_pro_decay c = 0%Z)
  /\ call c 7 = Raise ZeroDivisionError.
Proof.
  intros c.
  assert (H : num_epochs_per_cycle c = 0%Z \/ epochs_pro_decay c = 0%Z)
    by (right; reflexivity).
  split; [exact H | exact (CyclicLr_zero_period c 7 H)].
Defined.

End CyclicLrMore.

Section SchedulesAgree.

Local Open Scope Q_scope.

(** During the first cycle after [start_epoch] the cyclic schedule and the
    step schedule without a floor, configured alike, give the same
    result. *)
Theorem CyclicLr_first_cycle_is_StepMinLr
    (start : Z) (init factor : Q) (cycle period epoch : Z) :
  (start <= epoch < start + cycle)%Z ->
  CyclicLr.call (CyclicLr.mk start init factor cycle period) epoch
  = StepMinLr.call (StepMinLr.mk start init factor period None) epoch.
Proof.
  intros H.
  unfold CyclicLr.call, CyclicLr.cur_epoch_in_cycle, py_mod. simpl.
  destruct (Z.eqb_spec cycle 0) as [E|E]; [lia|].
  rewrite Z.mod_small by lia. simpl.
  unfold StepMinLr.call, StepMinLr.raw_lr, StepMinLr.steps. simpl.
  destruct (py_truediv (epoch - start) period) as [q|e]; simpl; [|reflexivity].
  destruct (py_pow factor (py_int q)) as [p|e]; reflexivity.
Qed.

Lemma CyclicLr_first_cycle_is_StepMinLr_witness :
  (0 <= 7 < 0 + 12)%Z
  /\ CyclicLr.call (CyclicLr.mk 0 (1 # 100) (1 # 2) 12 2) 7
     = StepMinLr.call (StepMinLr.mk 0 (1 # 100) (1 # 2) 2 None) 7.
Proof.
  assert (H : (0 <= 7 < 0 + 12)%Z) by lia.
  split; [exact H|].
  exact (CyclicLr_first_cycle_is_StepMinLr 0 (1 # 100) (1 # 2) 12 2 7 H).
Defined.

End SchedulesAgree.

Section StepMinLrMore.

Import StepMinLr.
Local Open Scope Q_scope.

(** From [start_epoch] onward the rate never exceeds [init_lr] unless the
    floor does: without a floor it lies between 0 and [init_lr]; with a
    floor [m] it is at least [m], and is [m] itself or at most
    [init_lr]. *)
Theorem StepMinLr_bounds_after_start (c : t) (epoch : Z) :
  0 <= init_lr c -> 0 < lr_decay_factor c -> lr_decay_factor c <= 1 ->
  (0 < epochs_pro_decay c)%Z -> (start_epoch c <= epoch)%Z ->
  exists r,
    call c epoch = Ok r
    /\ (min_lr c = None -> 0 <= r /\ r <= init_lr c)
    /\ (forall m, min_lr c = Some m -> m <= r /\ (r = m \/ r <= init_lr c)).
Proof.
  intros Hinit Hpos Hle Hepd He.
  assert (Hq : (0 <= Z.quot (epoch - start_epoch c) (epochs_pro_decay c))%Z)
    by (apply Z.quot_pos; lia).
  assert (Hraw := raw_lr_after_start c epoch Hpos Hle Hepd He).
  set (raw := init_lr c
              * lr_decay_factor c ^ Z.quot (epoch - start_epoch c) (epochs_pro_decay c))
    in *.
  assert (Hlo : 0 <= raw).
  { unfold raw. apply Qmult_le_0_compat; [assumption|].
    apply Qpower_0_le, Qlt_le_weak, Hpos. }
  assert (Hhi : raw <= init_lr c).
  { unfold raw. rewrite <- (Qmult_1_r (init_lr c)) at 2.
    rewrite !(Qmult_comm (init_lr c)).
    apply Qmult_le_compat_r; [|assumption].
    now apply Qpower_le_1. }
  eexists. split; [apply (call_of_raw c epoch raw Hraw)|].
  split.
  - intros ->. now split.
  - intros m ->. split; [apply py_max_ge_r|].
    destruct (py_max_cases raw m) as [E|E]; rewrite E; [right | left]; auto.
Qed.

Lemma StepMinLr_bounds_after_start_witness :
  let c := mk 0 1 (1 # 2) 1 (Some (1 # 10)) in
  0 <= init_lr c /\ 0 < lr_decay_factor c /\ lr_decay_factor c <= 1
  /\ (0 < epochs_pro_decay c)%Z /\ (start_epoch c <= 2)%Z
  /\ exists r,
      call c 2 = Ok r
      /\ (min_lr c = None -> 0 <= r /\ r <= init_lr c)
      /\ (forall m, min_lr c = Some m -> m <= r /\ (r = m \/ r <= init_lr c)).
Proof.
  intros c.
  assert (H0 : 0 <= init_lr c) by (unfold Qle; simpl; lia).
  assert (H1 : 0 < lr_decay_factor c) by reflexivity.
  assert (H2 : lr_decay_factor c <= 1) by (unfold Qle; simpl; lia).
  assert (H3 : (0 < epochs_pro_decay c)%Z) by reflexivity.
  assert (H4 : (start_epoch c <= 2)%Z) by (simpl; lia).
  repeat (split; [assumption|]).
  exact (StepMinLr_bounds_after_start c 2 H0 H1 H2 H3 H4).
Defined.

(** Up to [start_epoch] the rate is at least [init_lr]: the exponent is 0
    or negative there, and a factor of at most 1 raised to it is at
    least 1.  The call returns such a rate when the power is in the range
    of a float, and raises [OverflowError] when it is not. *)
Theorem StepMinLr_before_start (c : t) (epoch : Z) :
  0 <= init_lr c -> 0 < lr_decay_factor c -> lr_decay_factor c <= 1 ->
  (0 < epochs_pro_decay c)%Z -> (epoch <= start_epoch c)%Z ->
  let p := lr_decay_factor c
           ^ Z.quot (epoch - start_epoch c) (epochs_pro_decay c) in
  (overflows p = false -> exists r, call c epoch = Ok r /\ init_lr c <= r)
  /\ (overflows p = true -> call c epoch = Raise OverflowError).
Proof.
  intros Hinit Hpos Hle Hepd He p.
  assert (Hq : (Z.quot (epoch - start_epoch c) (epochs_pro_decay c) <= 0)%Z).
  { rewrite <- (Z.quot_0_l (epochs_pro_decay c)) by lia.
    apply Z.quot_le_mono; lia. }
  assert (Hnz : lr_decay_factor c == 0 ->
                (0 <= Z.quot (epoch - start_epoch c) (epochs_pro_decay c))%Z).
  { intros E. rewrite E in Hpos. discriminate. }
  split.
  - intros Hov.
    assert (Hraw := raw_lr_ok c epoch ltac:(lia) Hnz Hov).
    assert (Hge : init_lr c <= init_lr c * p).
    { rewrite <- (Qmult_1_r (init_lr c)) at 1.
      rewrite !(Qmult_comm (init_lr c)).
      apply Qmult_le_compat_r; [|assumption].
      change 1 with (lr_decay_factor c ^ 0).
      now apply Qpower_antitone. }
    eexists. split; [apply (call_of_raw c epoch _ Hraw)|].
    destruct (min_lr c) as [m|]; [|exact Hge].
    eapply Qle_trans; [exact Hge | apply py_max_ge_l].
  - intros Hov. unfold call. rewrite raw_lr_pow by lia.
    now rewrite (py_pow_overflow _ _ Hnz Hov).
Qed.

Lemma StepMinLr_before_start_witness :
  let c := mk 10 (1 # 100) (1 # 2) 2 None in
  0 <= init_lr c /\ 0 < lr_decay_factor c /\ lr_decay_factor c <= 1
  /\ (0 < epochs_pro_decay c)%Z /\ (4 <= start_epoch c)%Z
  /\ exists r, call c 4 = Ok r /\ init_lr c <= r.
Proof.
  intros c.
  assert (H0 : 0 <= init_lr c) by (unfold Qle; simpl; lia).
  assert (H1 : 0 < lr_decay_factor c) by reflexivity.
  assert (H2 : lr_decay_factor c <= 1) by (unfold Qle; simpl; lia).
  assert (H3 : (0 < epochs_pro_decay c)%Z) by reflexivity.
  assert (H4 : (4 <= start_epoch c)%Z) by (simpl; lia).
  repeat (split; [assumption|]).
  apply (proj1 (StepMinLr_before_start c 4 H0 H1 H2 H3 H4)).
  vm_compute. reflexivity.
Defined.

(** Once the rate has come down to the floor it stays there: if the call
    gives [min_lr] at one epoch, it gives [min_lr] at every later one. *)
Theorem StepMinLr_floor_absorbs (c : t) (m r0 : Q) (e0 epoch : Z) :
  0 <= init_lr c -> 0 < lr_decay_factor c -> lr_decay_factor c <= 1 ->
  (0 < epochs_pro_decay c)%Z ->
  min_lr c = Some m ->
  call c e0 = Ok r0 -> r0 == m ->
  (e0 <= epoch)%Z ->
  exists r, call c epoch = Ok r /\ r == m.
Proof.
  intros Hinit Hpos Hle Hepd Hm Hcall Hr0 He.
  apply call_inv in Hcall as (x0 & H0 & Hcall). rewrite Hm in Hcall.
  symmetry in Hcall.
  destruct (raw_lr_antitone c e0 epoch x0 Hinit Hpos Hle Hepd He H0)
    as (x & H1 & Hx).
  eexists. split; [rewrite (call_of_raw c epoch x H1), Hm; reflexivity|].
  apply Qle_antisym; [|apply py_max_ge_r].
  destruct (py_max_cases x m) as [E|E]; rewrite E; [|apply Qle_refl].
  eapply Qle_trans; [exact Hx|].
  rewrite <- Hr0, <- Hcall. apply py_max_ge_l.
Qed.

Lemma StepMinLr_floor_absorbs_witness :
  let c := mk 0 1 (1 # 2) 1 (Some (1 # 10)) in
  0 <= init_lr c /\ 0 < lr_decay_factor c /\ lr_decay_factor c <= 1
  /\ (0 < epochs_pro_decay c)%Z
  /\ min_lr c = Some (1 # 10)
  /\ call c 4 = Ok (1 # 10) /\ (4 <= 9)%Z
  /\ exists r, call c 9 = Ok r /\ r == 1 # 10.
Proof.
  intros c.
  assert (H0 : 0 <= init_lr c) by (unfold Qle; simpl; lia).
  assert (H1 : 0 < lr_decay_factor c) by reflexivity.
  assert (H2 : lr_decay_factor c <= 1) by (unfold Qle; simpl; lia).
  assert (H3 : (0 < epochs_pro_decay c)%Z) by reflexivity.
  assert (H4 : min_lr c = Some (1 # 10)) by reflexivity.
  assert (H5 : call c 4 = Ok (1 # 10)) by reflexivity.
  assert (H6 : (4 <= 9)%Z) by lia.
  repeat (split; [assumption|]).
  exact (StepMinLr_floor_absorbs c (1 # 10) (1 # 10) 4 9 H0 H1 H2 H3 H4 H5
           (Qeq_refl _) H6).
Defined.

(** A decay factor of 0: a whole period or more before [start_epoch] the
    call raises [ZeroDivisionError], 0 being raised to a negative power;
    less than one period away from [start_epoch] the rate before the floor
    is [init_lr]; from one period after [start_epoch] on it is 0. *)
Theorem StepMinLr_zero_factor (c : t) (epoch : Z) :
  lr_decay_factor c == 0 -> (0 < epochs_pro_decay c)%Z ->
  ((epoch <= start_epoch c - epochs_pro_decay c)%Z ->
   call c epoch = Raise ZeroDivisionError)
  /\ ((start_epoch c - epochs_pro_decay c < epoch
       < start_epoch c + epochs_pro_decay c)%Z ->
      exists r, raw_lr c epoch = Ok r /\ r == init_lr c)
  /\ ((start_epoch c + epochs_pro_decay c <= epoch)%Z ->
      exists r, raw_lr c epoch = Ok r /\ r == 0).
Proof.
  intros Hdf Hepd.
  set (n := Z.quot (epoch - start_epoch c) (epochs_pro_decay c)).
  assert (Hsteps : steps c epoch = Ok n) by (apply steps_quot; lia).
  split; [|split].
  - intros He.
    assert (Hn : (n <= -1)%Z).
    { unfold n.
      replace (-1)%Z with (Z.quot (- epochs_pro_decay c) (epochs_pro_decay c)).
      - apply Z.quot_le_mono; lia.
      - rewrite Z.quot_opp_l, Z.quot_same by lia. reflexivity. }
    unfold call, raw_lr. rewrite Hsteps. simpl. unfold py_pow.
    rewrite (proj2 (Qeq_bool_iff _ _) Hdf).
    destruct (Z.ltb_spec n 0); [reflexivity | lia].
  - intros He.
    assert (Hn : n = 0%Z).
    { unfold n. destruct (Z.le_gt_cases 0 (epoch - start_epoch c)).
      - apply Z.quot_small. lia.
      - rewrite <- (Z.opp_involutive (epoch - start_epoch c)).
        rewrite Z.quot_opp_l by lia. rewrite Z.quot_small by lia. reflexivity. }
    eexists. split.
    + apply raw_lr_ok; [lia | intros _; fold n; lia |].
      fold n. rewrite Hn. reflexivity.
    + fold n. rewrite Hn. simpl. apply Qmult_1_r.
  - intros He.
    assert (Hn : (1 <= n)%Z).
    { unfold n.
      replace 1%Z with (Z.quot (epochs_pro_decay c) (epochs_pro_decay c))
        by (apply Z.quot_same; lia).
      apply Z.quot_le_mono; lia. }
    assert (Hp : lr_decay_factor c ^ n == 0)
      by (rewrite Hdf; apply Qpower_0; lia).
    eexists. split.
    + apply raw_lr_ok; [lia | intros _; fold n; lia |].
      fold n. apply overflows_false_iff. rewrite Hp. reflexivity.
    + fold n. rewrite Hp. apply Qmult_0_r.
Qed.

Lemma StepMinLr_zero_factor_witness :
  let c := mk 10 (1 # 100) 0 2 None in
  lr_decay_factor c == 0 /\ (0 < epochs_pro_decay c)%Z
  /\ (3 <= start_epoch c - epochs_pro_decay c)%Z
  /\ call c 3 = Raise ZeroDivisionError.
Proof.
  intros c.
  assert (H0 : lr_decay_factor c == 0) by reflexivity.
  assert (H1 : (0 < epochs_pro_decay c)%Z) by reflexivity.
  assert (H2 : (3 <= start_epoch c - epochs_pro_decay c)%Z) by (simpl; lia).
  repeat (split; [assumption|]).
  exact (proj1 (StepMinLr_zero_factor c 3 H0 H1) H2).
Defined.

End StepMinLrMore.


(* ================================================================== *)
(** * Further properties of AverageMeter *)

Section AverageMeterMore.

Import AverageMeter.
Local Open Scope Q_scope.

Lemma total_weight_nonneg (calls : list (Q * Q)) :
  List.Forall (fun c => 0 < snd c) calls -> 0 <= total_weight calls.
Proof.
  induction 1 as [|c calls Hc _ IH]; simpl; [apply Qle_refl|].
  apply (Qle_trans _ (0 + 0)); [discriminate|].
  apply Qplus_le_compat; [apply Qlt_le_weak, Hc | exact IH].
Qed.

Lemma total_weight_pos (calls : list (Q * Q)) :
  calls <> [] -> List.Forall (fun c => 0 < snd c) calls -> 0 < total_weight calls.
Proof.
  intros Hne H. destruct H as [|c calls Hc H]; [congruence|]. simpl.
  apply (Qle_lt_trans _ (0 + total_weight calls)).
  - rewrite Qplus_0_l. now apply total_weight_nonneg.
  - apply Qplus_lt_l. exact Hc.
Qed.

(** With positive weights no call raises. *)
Lemma updates_strict_positive (calls : list (Q * Q)) (m : t) :
  0 <= count m ->
  List.Forall (fun c => 0 < snd c) calls ->
  updates_strict m calls = (updates m calls, Ok tt).
Proof.
  intros Hm H. revert m Hm.
  induction H as [|[v n] calls Hn _ IH]; intros m Hm; [reflexivity|].
  simpl in Hn.
  assert (Hpos : 0 < count m + n).
  { apply (Qlt_le_trans _ (0 + n)).
    - rewrite Qplus_0_l. exact Hn.
    - apply Qplus_le_compat; [exact Hm | apply Qle_refl]. }
  assert (Hnz : ~ count m + n == 0).
  { intros E. rewrite E in Hpos. discriminate. }
  rewrite updates_cons. cbn [updates_strict].
  rewrite (update_ok m v n Hnz). cbn [fst].
  apply IH. simpl. apply Qlt_le_weak, Hpos.
Qed.

Lemma updates_nonempty_mean_ok (calls : list (Q * Q)) (m : t) :
  calls <> [] -> mean_ok (updates m calls).
Proof.
  destruct calls as [|[v n] calls]; [congruence|]. intros _.
  rewrite updates_cons. apply updates_mean_ok, update_mean_ok.
Qed.

Lemma updates_positive_avg (m0 : t) (calls : list (Q * Q)) :
  calls <> [] ->
  List.Forall (fun c => 0 < snd c) calls ->
  0 < count (updates (reset m0) calls)
  /\ avg (updates (reset m0) calls) == weighted_sum calls / total_weight calls.
Proof.
  intros Hne Hpos.
  assert (Hc : count (updates (reset m0) calls) == total_weight calls).
  { rewrite updates_count. simpl. ring. }
  assert (Hs : sum (updates (reset m0) calls) == weighted_sum calls).
  { rewrite updates_sum. simpl. ring. }
  assert (Htw := total_weight_pos calls Hne Hpos).
  split; [now rewrite Hc|].
  assert (Ha : avg (updates (reset m0) calls)
               == sum (updates (reset m0) calls) / count (updates (reset m0) calls)).
  { apply (updates_nonempty_mean_ok calls (reset m0) Hne).
    rewrite Hc. intros E. rewrite E in Htw. discriminate. }
  now rewrite Ha, Hs, Hc.
Qed.

(** Observations with positive weights, made on a meter that was reset:
    no call raises, and the mean is the weighted mean of the values. *)
Theorem AverageMeter_weighted_mean (m0 : t) (calls : list (Q * Q)) :
  calls <> [] ->
  List.Forall (fun c => 0 < snd c) calls ->
  exists m,
    updates_strict (reset m0) calls = (m, Ok tt)
    /\ 0 < count m
    /\ avg m == weighted_sum calls / total_weight calls.
Proof.
  intros Hne Hpos.
  exists (updates (reset m0) calls).
  split; [apply updates_strict_positive; [apply Qle_refl | assumption]|].
  now apply updates_positive_avg.
Qed.

Lemma AverageMeter_weighted_mean_witness :
  let calls := [(3, 2); (1 # 2, 4)] in
  calls <> []
  /\ List.Forall (fun c => 0 < snd c) calls
  /\ exists m,
      updates_strict (reset init) calls = (m, Ok tt)
      /\ 0 < count m
      /\ avg m == weighted_sum calls / total_weight calls.
Proof.
  intros calls.
  assert (H1 : calls <> []) by discriminate.
  assert (H2 : List.Forall (fun c => 0 < snd c) calls)
    by (repeat constructor).
  split; [exact H1|]. split; [exact H2|].
  exact (AverageMeter_weighted_mean init calls H1 H2).
Defined.

End AverageMeterMore.


(* ================================================================== *)
(** * Further properties of accuracy *)

Section AccuracyMore.

Local Open Scope nat_scope.

Variable sel : nat -> list Q -> list nat.

Lemma num_hits_le (maxk k : nat) (rows : list (list Q)) (target : list nat) :
  num_hits sel maxk k rows target <= length rows.
Proof.
  revert target. induction rows as [|row rows IH]; intros target; simpl; [lia|].
  destruct target as [|label target]; [lia|].
  specialize (IH target). destruct (hit sel maxk k row label); lia.
Qed.

Lemma existsb_firstn_mono (label k1 k2 : nat) (l : list nat) :
  k1 <= k2 ->
  existsb (Nat.eqb label) (firstn k1 l) = true ->
  existsb (Nat.eqb label) (firstn k2 l) = true.
Proof.
  intros Hk H. apply existsb_exists in H as (x & Hx & Hlx).
  apply existsb_exists. exists x. split; [|exact Hlx].
  rewrite <- (Nat.min_l k1 k2 Hk), <- firstn_firstn in Hx.
  eapply firstn_In, Hx.
Qed.

Lemma num_hits_mono (maxk k1 k2 : nat) (rows : list (list Q)) (target : list nat) :
  k1 <= k2 ->
  num_hits sel maxk k1 rows target <= num_hits sel maxk k2 rows target.
Proof.
  intros Hk. revert target.
  induction rows as [|row rows IH]; intros target; simpl; [lia|].
  destruct target as [|label target]; [lia|].
  specialize (IH target). unfold hit.
  destruct (existsb (Nat.eqb label) (firstn k1 (sel maxk row))) eqn:E.
  - rewrite (existsb_firstn_mono label k1 k2 _ Hk E). lia.
  - destruct (existsb _ (firstn k2 _)); lia.
Qed.

Lemma num_hits_all_classes (n : nat) (rows : list (list Q)) (target : list nat) :
  Torch.selection sel ->
  List.Forall (fun r => length r = n) rows ->
  List.Forall (fun label => label < n) target ->
  length target = length rows ->
  num_hits sel n n rows target = length rows.
Proof.
  intros Hsel Hrows. revert target.
  induction Hrows as [|row rows Hrow _ IH]; intros target Ht Hlen; [reflexivity|].
  destruct target as [|label target]; [discriminate|].
  inversion Ht as [|? ? Hlabel Ht']; subst. simpl in Hlen.
  simpl. rewrite IH by (assumption || lia).
  assert (Hl : length (sel (length row) row) = length row)
    by (apply (Torch.sel_length sel Hsel); lia).
  assert (E : hit sel (length row) (length row) row label = true).
  { unfold hit. rewrite firstn_all2 by lia.
    apply existsb_exists. exists label. split; [|apply Nat.eqb_refl].
    apply (NoDup_length_incl (Torch.sel_NoDup sel Hsel (length row) row)
             (l' := seq 0 (length row))).
    - rewrite length_seq. lia.
    - intros x Hx. apply in_seq. split; [lia|].
      simpl. eapply (Torch.sel_bound sel Hsel), Hx.
    - apply in_seq. lia. }
  now rewrite E.
Qed.

Lemma num_hits_bad_labels (maxk k n : nat) (rows : list (list Q)) (target : list nat) :
  Torch.selection sel ->
  List.Forall (fun r => length r = n) rows ->
  List.Forall (fun label => n <= label) target ->
  num_hits sel maxk k rows target = 0.
Proof.
  intros Hsel Hrows. revert target.
  induction Hrows as [|row rows Hrow _ IH]; intros target Ht; [reflexivity|].
  destruct target as [|label target]; [reflexivity|].
  inversion Ht as [|? ? Hlabel Ht']; subst.
  simpl. rewrite IH by assumption.
  assert (E : hit sel maxk k row label = false).
  { unfold hit. apply not_true_iff_false. intros H.
    apply existsb_exists in H as (x & Hx & Hlx).
    apply Nat.eqb_eq in Hlx. subst x.
    apply firstn_In, (Torch.sel_bound sel Hsel) in Hx. lia. }
  now rewrite E.
Qed.

Lemma appended_range (topk : list nat) (k : nat) (output : Torch.tensor2)
    (target : list nat) :
  Torch.rows output <> [] ->
  length target = length (Torch.rows output) ->
  (0 <= appended sel topk k output target
   /\ appended sel topk k output target <= 100)%Q.
Proof.
  intros Hrows Hlen. pose proof (batch_size_pos output Hrows) as Hb.
  pose proof (num_hits_le (max_of topk) k (Torch.rows output) target) as Hle.
  unfold appended. rewrite Hlen.
  set (h := num_hits sel (max_of topk) k (Torch.rows output) target) in *.
  set (b := length (Torch.rows output)) in *.
  assert (E : (inject_Z (Z.of_nat h) * (100 / inject_Z (Z.of_nat b))
               == 100 * inject_Z (Z.of_nat h) / inject_Z (Z.of_nat b))%Q).
  { field. intros E. rewrite E in Hb. discriminate. }
  rewrite E. split.
  - apply Qle_shift_div_l; [exact Hb|]. rewrite Qmult_0_l.
    apply Qmult_le_0_compat; [discriminate|].
    unfold Qle. simpl. lia.
  - apply Qle_shift_div_r; [exact Hb|].
    apply Qmult_le_l; [reflexivity|].
    rewrite <- Zle_Qle. lia.
Qed.

(** Every value that [accuracy] returns is a percentage: it lies between
    0 and 100. *)
Theorem accuracy_range (output : Torch.tensor2) (target topk : list nat) :
  Torch.selection sel ->
  Torch.wf output ->
  Torch.rows output <> [] ->
  length target = length (Torch.rows output) ->
  topk <> [] ->
  List.Forall (fun k => k <= Torch.ncols output) topk ->
  view_ok (length (Torch.rows output)) topk = true ->
  exists res,
    accuracy sel output target topk = Ok res
    /\ List.Forall (fun r => (0 <= r /\ r <= 100)%Q) res.
Proof.
  intros Hsel Hwf Hrows Hlen Htopk Hk Hview.
  eexists. split; [now apply accuracy_ok|].
  apply List.Forall_forall. intros r Hr.
  apply in_map_iff in Hr as (k & <- & _).
  now apply appended_range.
Qed.

(** A larger [k] never gives a smaller value: asked for [k1] and [k2] with
    [k1 <= k2], [accuracy] returns two values in increasing order. *)
Theorem accuracy_monotone_in_k (output : Torch.tensor2) (target : list nat)
    (k1 k2 : nat) :
  Torch.selection sel ->
  Torch.wf output ->
  Torch.rows output <> [] ->
  length target = length (Torch.rows output) ->
  k1 <= k2 -> k2 <= Torch.ncols output ->
  view_ok (length (Torch.rows output)) [k1; k2] = true ->
  exists r1 r2,
    accuracy sel output target [k1; k2] = Ok [r1; r2] /\ (r1 <= r2)%Q.
Proof.
  intros Hsel Hwf Hrows Hlen Hk Hk2 Hview.
  do 2 eexists. split.
  - apply (accuracy_ok sel output target [k1; k2]); try assumption.
    + discriminate.
    + repeat constructor; lia.
  - unfold appended.
    apply Qmult_le_compat_r.
    + rewrite <- Zle_Qle. apply inj_le. now apply num_hits_mono.
    + apply Qle_shift_div_l.
      * rewrite Hlen. now apply batch_size_pos.
      * discriminate.
Qed.

(** Asked for as many classes as there are, [accuracy] returns 100 for
    every batch whose labels are class indices. *)
Theorem accuracy_all_classes (output : Torch.tensor2) (target : list nat) :
  Torch.selection sel ->
  Torch.wf output ->
  Torch.rows output <> [] ->
  length target = length (Torch.rows output) ->
  List.Forall (fun label => label < Torch.ncols output) target ->
  view_ok (length (Torch.rows output)) [Torch.ncols output] = true ->
  exists r,
    accuracy sel output target [Torch.ncols output] = Ok [r] /\ (r == 100)%Q.
Proof.
  intros Hsel Hwf Hrows Hlen Hlabels Hview.
  eexists. split.
  - apply (accuracy_ok sel output target [Torch.ncols output]); try assumption.
    + discriminate.
    + repeat constructor.
  - unfold appended. simpl max_of.
    rewrite (num_hits_all_classes _ _ _ Hsel Hwf Hlabels Hlen), Hlen.
    field. intros E. pose proof (batch_size_pos output Hrows) as Hb.
    rewrite E in Hb. discriminate.
Qed.

(** Labels that are not class indices are not rejected: they are never
    found among the predictions, and every value returned is 0. *)
Theorem accuracy_bad_labels (output : Torch.tensor2) (target topk : list nat) :
  Torch.selection sel ->
  Torch.wf output ->
  Torch.rows output <> [] ->
  length target = length (Torch.rows output) ->
  topk <> [] ->
  List.Forall (fun k => k <= Torch.ncols output) topk ->
  List.Forall (fun label => Torch.ncols output <= label) target ->
  view_ok (length (Torch.rows output)) topk = true ->
  exists res,
    accuracy sel output target topk = Ok res
    /\ length res = length topk
    /\ List.Forall (fun r => (r == 0)%Q) res.
Proof.
  intros Hsel Hwf Hrows Hlen Htopk Hk Hlabels Hview.
  eexists. split; [now apply accuracy_ok|]. split; [apply length_map|].
  apply List.Forall_forall. intros r Hr.
  apply in_map_iff in Hr as (k & <- & _).
  unfold appended.
  rewrite (num_hits_bad_labels _ k _ _ _ Hsel Hwf Hlabels). simpl.
  apply Qmult_0_l.
Qed.

(** A [k] larger than the number of classes makes [accuracy] raise,
    whatever the batch and the other members of [topk]. *)
Theorem accuracy_k_too_large (output : Torch.tensor2) (target topk : list nat)
    (k : nat) :
  In k topk -> Torch.ncols output < k ->
  accuracy sel output target topk = Raise IndexOutOfRange.
Proof.
  intros Hin Hk.
  assert (Hne : topk <> []) by (intros ->; contradiction).
  destruct (py_max_list_ok topk Hne) as (Hmax & _ & Hle).
  rewrite List.Forall_forall in Hle. specialize (Hle k Hin).
  unfold accuracy. rewrite Hmax. simpl bind. unfold Torch.topk.
  destruct (Nat.ltb_spec (Torch.ncols output) (max_of topk)); [reflexivity | lia].
Qed.

(** An empty batch makes [accuracy] raise [ZeroDivisionError]: the scale
    [100.0 / batch_size] is computed inside the loop, once [topk] has been
    accepted. *)
Theorem accuracy_empty_batch (n : nat) (topk : list nat) :
  topk <> [] ->
  List.Forall (fun k => k <= n) topk ->
  accuracy sel (Torch.mkTensor n []) [] topk = Raise ZeroDivisionError.
Proof.
  intros Hne Hk.
  destruct (py_max_list_ok topk Hne) as (_ & Hin & Hle).
  rewrite List.Forall_forall in Hk. specialize (Hk _ Hin).
  rewrite accuracy_loop; [| assumption | exact Hk | reflexivity].
  destruct topk as [|k topk]; [congruence|].
  rewrite List.Forall_forall in Hle. specialize (Hle k (or_introl eq_refl)).
  cbn [for_each].
  rewrite view_flat_ok; [reflexivity|].
  right. eapply List.Forall_impl;
    [|apply (correct_rows_width k _ [] []); [exact Hle | reflexivity]].
  intros r Hr. simpl in Hr. lia.
Qed.

(** A batch of two examples or more with a [k] of 2 or more in [topk]
    makes [accuracy] raise: [correct[:k]] cannot be viewed flat.  The
    values of the [k] before it in [topk] are lost with it. *)
Theorem accuracy_view_error (output : Torch.tensor2) (target topk : list nat)
    (k : nat) :
  2 <= length (Torch.rows output) ->
  length target = length (Torch.rows output) ->
  List.Forall (fun k => k <= Torch.ncols output) topk ->
  In k topk -> 2 <= k ->
  accuracy sel output target topk = Raise Torch.view_error.
Proof.
  intros Hb Hlen Hk Hin Hk2.
  assert (Hne : topk <> []) by (intros ->; contradiction).
  destruct (py_max_list_ok topk Hne) as (_ & Hmaxin & Hle).
  rewrite List.Forall_forall in Hk, Hle.
  rewrite accuracy_loop; [| assumption | now apply Hk | assumption].
  assert (Hw : forall a, In a topk ->
            List.Forall (fun r => length r = length (Torch.rows output))
              (firstn a (correct_rows (max_of topk)
                           (map (sel (max_of topk)) (Torch.rows output)) target))).
  { intros a Ha.
    pose proof (correct_rows_width a (max_of topk)
                  (map (sel (max_of topk)) (Torch.rows output)) target
                  (Hle a Ha)) as H.
    rewrite length_map in H. now apply H. }
  assert (Hraise : forall a, In a topk -> 2 <= a ->
            Torch.view_flat
              (firstn a (correct_rows (max_of topk)
                           (map (sel (max_of topk)) (Torch.rows output)) target))
            = Raise Torch.view_error).
  { intros a Ha Ha2.
    apply (view_flat_raise _ (length (Torch.rows output))); [| exact Hb | now apply Hw].
    rewrite correct_rows_height by now apply Hle. exact Ha2. }
  apply for_each_raise.
  - exists k. split; [exact Hin|]. now rewrite Hraise.
  - intros a Ha. destruct (Nat.le_gt_cases 2 a) as [Ha2|Ha2].
    + left. now rewrite Hraise.
    + right. rewrite view_flat_ok.
      * simpl bind. rewrite py_div_100_ok by lia. eexists. reflexivity.
      * left. rewrite correct_rows_height by now apply Hle. lia.
Qed.

End AccuracyMore.

Lemma accuracy_range_witness :
  let output := Torch.mkTensor 3 [[1; 3; 2]; [5; 5; 1]; [0; 1; 2]]%Q in
  let target := [1; 1; 0]%nat in
  let topk := [1]%nat in
  Torch.selection (Torch.select true)
  /\ Torch.wf output
  /\ Torch.rows output <> []
  /\ length target = length (Torch.rows output)
  /\ topk <> []
  /\ List.Forall (fun k => (k <= Torch.ncols output)%nat) topk
  /\ view_ok (length (Torch.rows output)) topk = true
  /\ exists res,
      accuracy (Torch.select true) output target topk = Ok res
      /\ List.Forall (fun r => (0 <= r /\ r <= 100)%Q) res.
Proof.
  intros output target topk.
  assert (H0 : Torch.selection (Torch.select true)) by apply select_selection.
  assert (H1 : Torch.wf output) by (repeat constructor).
  assert (H2 : Torch.rows output <> []) by discriminate.
  assert (H3 : length target = length (Torch.rows output)) by reflexivity.
  assert (H4 : topk <> []) by discriminate.
  assert (H5 : List.Forall (fun k => (k <= Torch.ncols output)%nat) topk)
    by (repeat constructor).
  assert (H6 : view_ok (length (Torch.rows output)) topk = true) by reflexivity.
  repeat (split; [assumption|]).
  exact (accuracy_range (Torch.select true) output target topk
           H0 H1 H2 H3 H4 H5 H6).
Defined.

Lemma accuracy_monotone_in_k_witness :
  let output := Torch.mkTensor 3 [[1; 3; 2]]%Q in
  let target := [2]%nat in
  Torch.selection (Torch.select true)
  /\ Torch.wf output
  /\ Torch.rows output <> []
  /\ length target = length (Torch.rows output)
  /\ (1 <= 2)%nat /\ (2 <= Torch.ncols output)%nat
  /\ view_ok (length (Torch.rows output)) [1; 2]%nat = true
  /\ exists r1 r2,
      accuracy (Torch.select true) output target [1; 2]%nat = Ok [r1; r2]
      /\ (r1 <= r2)%Q.
Proof.
  intros output target.
  assert (H0 : Torch.selection (Torch.select true)) by apply select_selection.
  assert (H1 : Torch.wf output) by (repeat constructor).
  assert (H2 : Torch.rows output <> []) by discriminate.
  assert (H3 : length target = length (Torch.rows output)) by reflexivity.
  assert (H4 : (1 <= 2)%nat) by lia.
  assert (H5 : (2 <= Torch.ncols output)%nat) by (simpl; lia).
  assert (H6 : view_ok (length (Torch.rows output)) [1; 2]%nat = true)
    by reflexivity.
  repeat (split; [assumption|]).
  exact (accuracy_monotone_in_k (Torch.select true) output target 1 2
           H0 H1 H2 H3 H4 H5 H6).
Defined.

Lemma accuracy_all_classes_witness :
  let output := Torch.mkTensor 3 [[1; 3; 2]]%Q in
  let target := [0]%nat in
  Torch.selection (Torch.select true)
  /\ Torch.wf output
  /\ Torch.rows output <> []
  /\ length target = length (Torch.rows output)
  /\ List.Forall (fun label => (label < Torch.ncols output)%nat) target
  /\ view_ok (length (Torch.rows output)) [Torch.ncols output] = true
  /\ exists r,
      accuracy (Torch.select true) output target [Torch.ncols output] = Ok [r]
      /\ (r == 100)%Q.
Proof.
  intros output target.
  assert (H0 : Torch.selection (Torch.select true)) by apply select_selection.
  assert (H1 : Torch.wf output) by (repeat constructor).
  assert (H2 : Torch.rows output <> []) by discriminate.
  assert (H3 : length target = length (Torch.rows output)) by reflexivity.
  assert (H4 : List.Forall (fun label => (label < Torch.ncols output)%nat) target)
    by (repeat constructor).
  assert (H5 : view_ok (length (Torch.rows output)) [Torch.ncols output] = true)
    by reflexivity.
  repeat (split; [assumption|]).
  exact (accuracy_all_classes (Torch.select true) output target
           H0 H1 H2 H3 H4 H5).
Defined.

Lemma accuracy_bad_labels_witness :
  let output := Torch.mkTensor 3 [[1; 3; 2]; [5; 5; 1]]%Q in
  let target := [3; 7]%nat in
  let topk := [1]%nat in
  Torch.selection (Torch.select true)
  /\ Torch.wf output
  /\ Torch.rows output <> []
  /\ length target = length (Torch.rows output)
  /\ topk <> []
  /\ List.Forall (fun k => (k <= Torch.ncols output)%nat) topk
  /\ List.Forall (fun label => (Torch.ncols output <= label)%nat) target
  /\ view_ok (length (Torch.rows output)) topk = true
  /\ exists res,
      accuracy (Torch.select true) output target topk = Ok res
      /\ length res = length topk
      /\ List.Forall (fun r => (r == 0)%Q) res.
Proof.
  intros output target topk.
  assert (H0 : Torch.selection (Torch.select true)) by apply select_selection.
  assert (H1 : Torch.wf output) by (repeat constructor).
  assert (H2 : Torch.rows output <> []) by discriminate.
  assert (H3 : length target = length (Torch.rows output)) by reflexivity.
  assert (H4 : topk <> []) by discriminate.
  assert (H5 : List.Forall (fun k => (k <= Torch.ncols output)%nat) topk)
    by (repeat constructor).
  assert (H6 : List.Forall (fun label => (Torch.ncols output <= label)%nat) target)
    by (repeat constructor).
  assert (H7 : view_ok (length (Torch.rows output)) topk = true) by reflexivity.
  repeat (split; [assumption|]).
  exact (accuracy_bad_labels (Torch.select true) output target topk
           H0 H1 H2 H3 H4 H5 H6 H7).
Defined.

Lemma accuracy_k_too_large_witness :
  let output := Torch.mkTensor 3 [[1; 3; 2]; [5; 5; 1]]%Q in
  In 5%nat [1; 5]%nat /\ (Torch.ncols output < 5)%nat
  /\ accuracy (Torch.select true) output [1; 0]%nat [1; 5]%nat
     = Raise IndexOutOfRange.
Proof.
  intros output.
  assert (H1 : In 5%nat [1; 5]%nat) by (right; left; reflexivity).
  assert (H2 : (Torch.ncols output < 5)%nat) by (simpl; lia).
  split; [exact H1|]. split; [exact H2|].
  exact (accuracy_k_too_large (Torch.select true) output [1; 0]%nat [1; 5]%nat
           5%nat H1 H2).
Defined.

Lemma accuracy_empty_batch_witness :
  [1; 5]%nat <> []
  /\ List.Forall (fun k => (k <= 10)%nat) [1; 5]%nat
  /\ accuracy (Torch.select true) (Torch.mkTensor 10 []) [] [1; 5]%nat
     = Raise ZeroDivisionError.
Proof.
  assert (H1 : [1; 5]%nat <> []) by discriminate.
  assert (H2 : List.Forall (fun k => (k <= 10)%nat) [1; 5]%nat)
    by (repeat constructor).
  split; [exact H1|]. split; [exact H2|].
  exact (accuracy_empty_batch (Torch.select true) 10 [1; 5]%nat H1 H2).
Defined.

Lemma accuracy_view_error_witness :
  let output := Torch.mkTensor 3 [[1; 3; 2]; [5; 5; 1]; [0; 1; 2]]%Q in
  (2 <= length (Torch.rows output))%nat
  /\ length [1; 1; 0]%nat = length (Torch.rows output)
  /\ List.Forall (fun k => (k <= Torch.ncols output)%nat) [1; 2]%nat
  /\ In 2%nat [1; 2]%nat /\ (2 <= 2)%nat
  /\ accuracy (Torch.select true) output [1; 1; 0]%nat [1; 2]%nat
     = Raise Torch.view_error.
Proof.
  intros output.
  assert (H1 : (2 <= length (Torch.rows output))%nat) by (simpl; lia).
  assert (H2 : length [1; 1; 0]%nat = length (Torch.rows output)) by reflexivity.
  assert (H3 : List.Forall (fun k => (k <= Torch.ncols output)%nat) [1; 2]%nat)
    by (repeat constructor).
  assert (H4 : In 2%nat [1; 2]%nat) by (right; left; reflexivity).
  assert (H5 : (2 <= 2)%nat) by lia.
  repeat (split; [assumption|]).
  exact (accuracy_view_error (Torch.select true) output [1; 1; 0]%nat
           [1; 2]%nat 2%nat H1 H2 H3 H4 H5).
Defined.


(* ================================================================== *)
(** * Further properties of save_checkpoint and timed_operation *)

Section CheckpointMore.

Variable resolve : string -> string.
Context {State : Type}.
Variable serialize : State -> list Byte.byte.


(** A checkpoint that is not the best leaves the best file alone: after a
    best save of [s1] and a later plain save of [s2] to the same path,
    which does not name the best file, the file of the path holds [s2] and
    the best file still holds [s1]. *)
Theorem save_checkpoint_keeps_best (s1 s2 : State)
    (filepath best_suffix : string) (fs : filesystem) :
  resolve filepath <> resolve (best_path filepath best_suffix) ->
  let fs1 := fst (save_checkpoint resolve serialize s1 true filepath
                    best_suffix fs) in
  let fs2 := fst (save_checkpoint resolve serialize s2 false filepath
                    best_suffix fs1) in
  read_file resolve filepath fs2 = Some (serialize s2)
  /\ read_file resolve (best_path filepath best_suffix) fs2 = Some (serialize s1).
Proof.
  intros Hne fs1 fs2. unfold fs2, fs1, save_checkpoint.
  fold (best_path filepath best_suffix).
  destruct (copyfile_spec resolve filepath (best_path filepath best_suffix)
              (serialize s1) _
              (torch_save_lookup resolve serialize s1 filepath fs))
    as [[E _] | [_ ->]]; [contradiction|].
  simpl. unfold read_file, torch_save, write_file. split.
  - apply lookup_insert_eq.
  - rewrite lookup_insert_ne by assumption. apply lookup_insert_eq.
Qed.

(** Saving overwrites: saving the same state again with the same
    arguments leaves the files as the first save left them. *)
Theorem save_checkpoint_idempotent (state : State) (is_best : bool)
    (filepath best_suffix : string) (fs : filesystem) :
  let fs1 := fst (save_checkpoint resolve serialize state is_best filepath
                    best_suffix fs) in
  fst (save_checkpoint resolve serialize state is_best filepath best_suffix fs1)
  = fs1.
Proof.
  intros fs1.
  pose proof (torch_save_lookup resolve serialize state filepath fs) as Hsaved.
  assert (Hp : read_file resolve filepath fs1 = Some (serialize state)).
  { unfold fs1, save_checkpoint. destruct is_best.
    - fold (best_path filepath best_suffix).
      destruct (copyfile_spec resolve filepath (best_path filepath best_suffix)
                  (serialize state) _ Hsaved)
        as [[E ->] | [E ->]]; simpl.
      + exact Hsaved.
      + unfold read_file in *. now rewrite lookup_insert_ne by congruence.
    - exact Hsaved. }
  assert (Hw : torch_save resolve serialize state filepath fs1 = fs1).
  { unfold torch_save, write_file. now apply insert_id. }
  unfold save_checkpoint at 1. rewrite Hw.
  destruct is_best eqn:Hb; [|reflexivity].
  fold (best_path filepath best_suffix).
  destruct (copyfile_spec resolve filepath (best_path filepath best_suffix)
              (serialize state) fs1 Hp) as [[E ->] | [E ->]]; simpl.
  - reflexivity.
  - apply insert_id. unfold fs1, save_checkpoint.
    fold (best_path filepath best_suffix).
    destruct (copyfile_spec resolve filepath (best_path filepath best_suffix)
                (serialize state) _ Hsaved)
      as [[E' _] | [_ ->]]; [contradiction|].
    simpl. apply lookup_insert_eq.
Qed.

End CheckpointMore.

Lemma save_checkpoint_keeps_best_witness :
  let ser : list Byte.byte -> list Byte.byte := fun s => s in
  let fs1 := fst (save_checkpoint plain_names ser [Byte.x01] true
                    "run/ckpt.pth.tar" "_x" ∅) in
  let fs2 := fst (save_checkpoint plain_names ser [Byte.x02] false
                    "run/ckpt.pth.tar" "_x" fs1) in
  plain_names "run/ckpt.pth.tar"
  <> plain_names (best_path "run/ckpt.pth.tar" "_x")
  /\ read_file plain_names "run/ckpt.pth.tar" fs2 = Some [Byte.x02]
  /\ read_file plain_names (best_path "run/ckpt.pth.tar" "_x") fs2
     = Some [Byte.x01].
Proof.
  intros ser fs1 fs2.
  assert (H : plain_names "run/ckpt.pth.tar"
              <> plain_names (best_path "run/ckpt.pth.tar" "_x"))
    by discriminate.
  split; [exact H|].
  exact (save_checkpoint_keeps_best plain_names ser [Byte.x01] [Byte.x02]
           "run/ckpt.pth.tar" "_x" ∅ H).
Defined.

Section TimedMore.

Import Timed.
Local Open Scope Q_scope.

(** Around a block that prints [ls] and takes the time [dt]: the output
    is, in this order, the start line when [log_start] holds, the lines
    of the block, and for the units ["m"], ["h"] and ["d"] the completion
    line with [dt] divided by the seconds of the unit.  For any other
    unit the scope raises [ValueError] once the block has run, the start
    line and the lines of the block already printed. *)
Theorem timed_operation_output (msg : string) (log_start : bool)
    (tformat : string) (dt : Q) (ls : list line) (w : world) :
  let r := timed_operation msg log_start tformat (appending_block dt ls) w in
  let printed := out w ++ (if log_start then [StartLine msg] else []) ++ ls in
  now (fst r) = now w + dt
  /\ (tformat = "m" \/ tformat = "h" \/ tformat = "d" ->
      snd r = Ok tt
      /\ exists x, out (fst r) = printed ++ [FinishedLine msg x tformat]
                   /\ x == dt / divisor tformat)
  /\ (tformat <> "m" -> tformat <> "h" -> tformat <> "d" ->
      snd r = Raise (ValueError ("Unknown tformat=" ++ tformat))
      /\ out (fst r) = printed).
Proof.
  intros r printed.
  assert (Hbody : appending_block dt ls (entered msg log_start w)
                  = (mkWorld (now w + dt) printed, Ok tt)).
  { unfold appending_block, printed, entered.
    destruct log_start; simpl; [|reflexivity].
    now rewrite <- List.app_assoc. }
  unfold r. rewrite (timed_operation_returning _ _ _ _ _ _ Hbody).
  assert (Hnow : now (entered msg log_start w) = now w)
    by (unfold entered; now destruct log_start).
  rewrite Hnow.
  split; [|split].
  - unfold after_yield. simpl f_tformat.
    destruct (unit_divisor tformat); reflexivity.
  - intros [-> | [-> | ->]]; (split; [reflexivity|]); eexists;
      (split; [reflexivity|]); simpl; apply Qdiv_comp; try reflexivity;
      unfold Qeq; simpl; lia.
  - intros Hm Hh Hd. unfold after_yield. simpl f_tformat.
    rewrite (unit_divisor_unknown tformat);
      [split; reflexivity | now apply String.eqb_neq ..].
Qed.

Lemma timed_operation_output_witness :
  let r := timed_operation "job" true "h" (appending_block 7200 [OtherLine "step"])
             (mkWorld 5 []) in
  ("h" = "m" \/ "h" = "h" \/ "h" = "d")
  /\ snd r = Ok tt
  /\ exists x, out (fst r)
               = ([] ++ [StartLine "job"] ++ [OtherLine "step"])
                 ++ [FinishedLine "job" x "h"]
               /\ x == 7200 / divisor "h".
Proof.
  intros r.
  assert (H : "h" = "m" \/ "h" = "h" \/ "h" = "d") by (right; left; reflexivity).
  split; [exact H|].
  exact (proj1 (proj2 (timed_operation_output "job" true "h" 7200
                         [OtherLine "step"] (mkWorld 5 []))) H).
Defined.

End TimedMore.

